(** * The daala range decoder (src/entdec.c)

    A shallow embedding of the entropy decoder of [src/entdec.c]: the decoder
    context is a record, every C function is a function from the context (and
    its arguments) to the new context and the returned value.

    Conventions.
    - [unsigned], [ogg_uint32_t] and [od_ec_window] values are integers in
      [0, 2^32); every operation of the source that can leave that interval
      is wrapped with [u32].
    - [int] values are modelled in [Z] as they are: C leaves signed overflow
      undefined, and a cast [(int)x] of an unsigned [x] is [s32 x].
    - Shifts are [Z.shiftl] and [Z.shiftr]; a shift by a negative count, which
      C leaves undefined, does not occur in a call made as the source
      documents it.
    - Reading the table of an inverse CDF past its end is undefined in C; the
      table walk returns [None] there. *)

From Stdlib Require Import ZArith List Lia Bool.
From Stdlib Require Import Strings.Byte.
Import ListNotations.
Local Open Scope Z_scope.

(** ** Machine integers *)

Definition u32 (x : Z) : Z := x mod 2 ^ 32.

Definition s32 (x : Z) : Z :=
  if u32 x <? 2 ^ 31 then u32 x else u32 x - 2 ^ 32.

(** ** What entdec.c takes from its headers *)

(** Modelled from the spec: [od_ec_window] and [OD_EC_WINDOW_SIZE] are declared
    in a header that is not among the sources.  The spec asks for a window of
    at least 32 bits; the source shifts a 32-bit [unsigned] by
    [OD_EC_WINDOW_SIZE-16] in [od_ec_dec_update] and ORs a shifted [int] into
    the window in [od_ec_dec_bits], which is only meaningful for a 32-bit
    window. *)
Definition OD_EC_WINDOW_SIZE : Z := 32.

(** Modelled from the spec: [OD_ILOG_NZ] is a macro of a header that is not
    among the sources; the spec calls it the bit length of its argument
    (the number of bits needed to write it, 0 for 0). *)
Definition OD_ILOG_NZ (v : Z) : Z :=
  if v <=? 0 then 0 else Z.log2 v + 1.

(** Modelled from the spec: [OD_MAXI] and [OD_MINI] are macros of a header that
    is not among the sources: the larger and the smaller of two integers. *)
Definition OD_MAXI (a b : Z) : Z := Z.max a b.
Definition OD_MINI (a b : Z) : Z := Z.min a b.

Definition OD_EC_LOTS_OF_BITS : Z := 0x4000.

(** ** The decoder context *)

(** The fields [od_ec_dec] has in the source; [buf] is the borrowed input. *)
Record od_ec_dec : Type := mk_dec {
  buf : list byte;
  storage : Z;
  end_offs : Z;
  end_window : Z;
  nend_bits : Z;
  nbits_total : Z;
  offs : Z;
  rng : Z;
  val : Z;
  cnt : Z;
  ext : Z;
  error : Z
}.

Definition buf_at (b : list byte) (i : Z) : Z :=
  Z.of_N (Byte.to_N (nth (Z.to_nat i) b x00)).

Definition set_ext (st : od_ec_dec) (s : Z) : od_ec_dec :=
  mk_dec (buf st) (storage st) (end_offs st) (end_window st) (nend_bits st)
         (nbits_total st) (offs st) (rng st) (val st) (cnt st) s (error st).

Definition set_error (st : od_ec_dec) (e : Z) : od_ec_dec :=
  mk_dec (buf st) (storage st) (end_offs st) (end_window st) (nend_bits st)
         (nbits_total st) (offs st) (rng st) (val st) (cnt st) (ext st) e.

(** ** Normalization and initialization *)

(** The byte loop shared by [od_ec_dec_normalize] and [od_ec_dec_init]:
    [for(s=...;s>=0;){if(offs>=storage){c=OD_EC_LOTS_OF_BITS;break;} ...}].
    It returns the final [c], [offs] and [dif].  [s] drops by 8 in every
    round, so [s/8+1] rounds are enough. *)
Fixpoint od_ec_dec_refill (fuel : nat) (b : list byte) (stor : Z)
    (s c o dif : Z) : Z * Z * Z :=
  match fuel with
  | O => (c, o, dif)
  | S fuel' =>
      if s <? 0 then (c, o, dif)
      else if stor <=? o then (OD_EC_LOTS_OF_BITS, o, dif)
      else od_ec_dec_refill fuel' b stor (s - 8) (c + 8) (u32 (o + 1))
             (Z.lor dif (u32 (Z.shiftl (buf_at b o) s)))
  end.

Definition refill_fuel (s : Z) : nat := Z.to_nat (s / 8 + 1).

Definition od_ec_dec_normalize (st : od_ec_dec) (_dif _rng _ret : Z)
    : od_ec_dec * Z :=
  let nbits_total0 := nbits_total st in
  let c := cnt st in
  let d := 16 - OD_ILOG_NZ _rng in
  let c := c - d in
  let _dif := u32 (Z.shiftl _dif d) in
  let '(c, o, _dif) :=
    if c <? 0 then
      let s := OD_EC_WINDOW_SIZE - 9 - (c + 15) in
      od_ec_dec_refill (refill_fuel s) (buf st) (storage st) s c (offs st) _dif
    else (c, offs st, _dif) in
  (mk_dec (buf st) (storage st) (end_offs st) (end_window st) (nend_bits st)
          (nbits_total0 + d) o (u32 (Z.shiftl _rng d)) _dif c (ext st)
          (error st),
   _ret).

Definition od_ec_dec_init (_buf : list byte) (_storage : Z) : od_ec_dec :=
  let s := OD_EC_WINDOW_SIZE - 9 in
  let '(c, o, dif) :=
    od_ec_dec_refill (refill_fuel s) _buf _storage s (-15) 0 0 in
  mk_dec _buf _storage 0 0 0 1 o 0x8000 dif c 0 0.

(** ** Symbol decoding *)

Definition top16 (st : od_ec_dec) : Z :=
  u32 (Z.shiftr (val st) (OD_EC_WINDOW_SIZE - 16)).

Definition od_ec_decode_normalized (st : od_ec_dec) (_ft : Z)
    : od_ec_dec * Z :=
  let dif := top16 st in
  let r := rng st in
  let s := if u32 (Z.shiftl _ft 1) <=? r then 1 else 0 in
  let _ft := u32 (Z.shiftl _ft s) in
  let d := u32 (r - _ft) in
  (set_ext st s,
   u32 (Z.shiftr (OD_MAXI (s32 (Z.shiftr dif 1)) (s32 (dif - d))) s)).

Definition od_ec_decode (st : od_ec_dec) (_ft : Z) : od_ec_dec * Z :=
  let dif := top16 st in
  let r := rng st in
  let s := 15 - OD_ILOG_NZ (u32 (_ft - 1)) in
  let _ft := u32 (Z.shiftl _ft s) in
  let '(_ft, s) :=
    if u32 (Z.shiftl _ft 1) <=? r then (u32 (Z.shiftl _ft 1), s + 1)
    else (_ft, s) in
  let d := u32 (r - _ft) in
  (set_ext st s,
   u32 (Z.shiftr (OD_MAXI (s32 (Z.shiftr dif 1)) (s32 (dif - d))) s)).

Definition od_ec_decode_bin_normalized (st : od_ec_dec) : od_ec_dec * Z :=
  let dif := top16 st in
  let r := rng st in
  let d := u32 (r - 32768) in
  (set_ext st 0, u32 (OD_MAXI (s32 (Z.shiftr dif 1)) (s32 (dif - d)))).

Definition od_ec_decode_bin (st : od_ec_dec) (_ftb : Z) : od_ec_dec * Z :=
  let dif := top16 st in
  let r := rng st in
  let d := u32 (r - 32768) in
  let s := s32 (15 - _ftb) in
  (set_ext st s,
   u32 (Z.shiftr (OD_MAXI (s32 (Z.shiftr dif 1)) (s32 (dif - d))) s)).

Definition od_ec_dec_update (st : od_ec_dec) (_fl _fh _ft : Z) : od_ec_dec :=
  let dif := val st in
  let r := rng st in
  let s := ext st in
  let _fl := u32 (Z.shiftl _fl s) in
  let _fh := u32 (Z.shiftl _fh s) in
  let _ft := u32 (Z.shiftl _ft s) in
  let d := u32 (r - _ft) in
  let u := u32 (_fl + OD_MINI _fl d) in
  let v := u32 (_fh + OD_MINI _fh d) in
  let r := u32 (v - u) in
  let dif := u32 (dif - u32 (Z.shiftl u (OD_EC_WINDOW_SIZE - 16))) in
  fst (od_ec_dec_normalize st dif r 0).

Definition od_ec_dec_bit_logp (st : od_ec_dec) (_logp : Z) : od_ec_dec * Z :=
  let dif := val st in
  let r := rng st in
  let v := u32 (32768 - s32 (Z.shiftl 1 (u32 (15 - _logp)))) in
  let v := u32 (v + OD_MINI v (u32 (r - 32768))) in
  let vw := u32 (Z.shiftl v (OD_EC_WINDOW_SIZE - 16)) in
  let ret := if vw <=? dif then 1 else 0 in
  let dif := if ret =? 1 then u32 (dif - vw) else dif in
  let r := if ret =? 1 then u32 (r - v) else v in
  od_ec_dec_normalize st dif r ret.

(** ** Inverse CDF tables *)

(** [for(ret=0;_icdf[ret]>=q;ret++)fl=_icdf[ret];] over the entries the table
    has: the result is the final [ret] and [fl], or [None] when the walk runs
    off the end of the table. *)
Fixpoint icdf_walk (tbl : list Z) (q ret fl : Z) : option (Z * Z) :=
  match tbl with
  | [] => None
  | x :: tbl' =>
      if q <=? x then icdf_walk tbl' q (ret + 1) x else Some (ret, fl)
  end.

Definition icdf_at (tbl : list Z) (i : Z) : Z := nth (Z.to_nat i) tbl 0.

(** The body [od_ec_dec_icdf_ft] and [od_ec_dec_icdf16_ft] have in common;
    [tbl] holds the entries of [_icdf] as integers. *)
Definition icdf_ft_body (st : od_ec_dec) (tbl : list Z) (_ft : Z)
    : option (od_ec_dec * Z) :=
  let dif := val st in
  let r := rng st in
  let s := 15 - OD_ILOG_NZ (u32 (_ft - 1)) in
  let ft := u32 (Z.shiftl _ft s) in
  let '(ft, s) :=
    if u32 (Z.shiftl ft 1) <=? r then (u32 (Z.shiftl ft 1), s + 1)
    else (ft, s) in
  let d := u32 (r - ft) in
  let q :=
    u32 (Z.shiftr
           (OD_MAXI (s32 (Z.shiftr dif (OD_EC_WINDOW_SIZE - 15)))
                    (s32 (Z.shiftr dif (OD_EC_WINDOW_SIZE - 16) - d))) s) in
  let q := u32 (_ft - q) in
  match icdf_walk tbl q 0 _ft with
  | None => None
  | Some (ret, fl) =>
      let fl := u32 (Z.shiftl (u32 (_ft - fl)) s) in
      let fh := u32 (Z.shiftl (u32 (_ft - icdf_at tbl ret)) s) in
      let u := u32 (fl + OD_MINI fl d) in
      let v := u32 (fh + OD_MINI fh d) in
      let r := u32 (v - u) in
      let dif := u32 (dif - u32 (Z.shiftl u (OD_EC_WINDOW_SIZE - 16))) in
      Some (od_ec_dec_normalize st dif r ret)
  end.

(** The body [od_ec_dec_icdf] and [od_ec_dec_icdf16] have in common. *)
Definition icdf_body (st : od_ec_dec) (tbl : list Z) (_ftb : Z)
    : option (od_ec_dec * Z) :=
  let dif := val st in
  let r := rng st in
  let s := s32 (15 - _ftb) in
  let d := u32 (r - 32768) in
  let q :=
    u32 (Z.shiftr
           (OD_MAXI (s32 (Z.shiftr dif (OD_EC_WINDOW_SIZE - 15)))
                    (s32 (Z.shiftr dif (OD_EC_WINDOW_SIZE - 16) - d))) s) in
  let fl := u32 (Z.shiftl 1 _ftb) in
  let q := u32 (fl - q) in
  match icdf_walk tbl q 0 fl with
  | None => None
  | Some (ret, fl) =>
      let fl := u32 (32768 - u32 (Z.shiftl fl s)) in
      let fh := u32 (32768 - Z.shiftl (icdf_at tbl ret) s) in
      let u := u32 (fl + OD_MINI fl d) in
      let v := u32 (fh + OD_MINI fh d) in
      let r := u32 (v - u) in
      let dif := u32 (dif - u32 (Z.shiftl u (OD_EC_WINDOW_SIZE - 16))) in
      Some (od_ec_dec_normalize st dif r ret)
  end.

(** A table of [unsigned char] and a table of [ogg_uint16_t], as integers. *)
Definition tbl8 (t : list byte) : list Z :=
  map (fun b => Z.of_N (Byte.to_N b)) t.

Definition tbl16 (t : list Z) : list Z := map (fun x => x mod 2 ^ 16) t.

Definition od_ec_dec_icdf_ft (st : od_ec_dec) (_icdf : list byte) (_ft : Z) :=
  icdf_ft_body st (tbl8 _icdf) _ft.

Definition od_ec_dec_icdf16_ft (st : od_ec_dec) (_icdf : list Z) (_ft : Z) :=
  icdf_ft_body st (tbl16 _icdf) _ft.

Definition od_ec_dec_icdf (st : od_ec_dec) (_icdf : list byte) (_ftb : Z) :=
  icdf_body st (tbl8 _icdf) _ftb.

Definition od_ec_dec_icdf16 (st : od_ec_dec) (_icdf : list Z) (_ftb : Z) :=
  icdf_body st (tbl16 _icdf) _ftb.

(** ** Raw bits and uniform integers *)

(** The [do ... while(available<=OD_EC_WINDOW_SIZE-8)] loop of
    [od_ec_dec_bits]; it returns the final [end_offs], [window] and
    [available]. *)
Fixpoint od_ec_dec_bits_refill (fuel : nat) (b : list byte) (stor : Z)
    (eo window available : Z) : Z * Z * Z :=
  match fuel with
  | O => (eo, window, available)
  | S fuel' =>
      if stor <=? eo then (eo, window, OD_EC_LOTS_OF_BITS)
      else
        let eo := u32 (eo + 1) in
        let window :=
          Z.lor window (u32 (Z.shiftl (buf_at b (u32 (stor - eo))) available)) in
        let available := available + 8 in
        if available <=? OD_EC_WINDOW_SIZE - 8
        then od_ec_dec_bits_refill fuel' b stor eo window available
        else (eo, window, available)
  end.

Definition bits_fuel (available : Z) : nat :=
  S (Z.to_nat ((OD_EC_WINDOW_SIZE - 8 - available) / 8)).

Definition od_ec_dec_bits (st : od_ec_dec) (_bits : Z) : od_ec_dec * Z :=
  let window := end_window st in
  let available := nend_bits st in
  let '(eo, window, available) :=
    if u32 available <? _bits then
      od_ec_dec_bits_refill (bits_fuel available) (buf st) (storage st)
        (end_offs st) window available
    else (end_offs st, window, available) in
  let ret := Z.land (u32 window) (u32 (u32 (Z.shiftl 1 _bits) - 1)) in
  let window := Z.shiftr window _bits in
  let available := available - _bits in
  (mk_dec (buf st) (storage st) eo window available (nbits_total st + _bits)
          (offs st) (rng st) (val st) (cnt st) (ext st) (error st),
   ret).

Section UInt.

(** [OD_EC_UINT_BITS] is a constant of a header that is not among the sources:
    the number of bits of a uniform integer that go through the range coder. *)
Variable OD_EC_UINT_BITS : Z.

Definition od_ec_dec_uint (st : od_ec_dec) (_ft : Z) : od_ec_dec * Z :=
  if u32 (Z.shiftl 1 OD_EC_UINT_BITS) <? _ft then
    let _ft := u32 (_ft - 1) in
    let ftb := OD_ILOG_NZ _ft - OD_EC_UINT_BITS in
    let ft :=
      u32 (Z.shiftl (u32 (Z.shiftr _ft ftb + 1)) (15 - OD_EC_UINT_BITS)) in
    let '(st1, v) := od_ec_decode_normalized st ft in
    let fs :=
      Z.land v (u32 (Z.lnot (Z.shiftl 1 (15 - OD_EC_UINT_BITS) - 1))) in
    let st2 :=
      od_ec_dec_update st1 fs
        (u32 (fs + Z.shiftl 1 (15 - OD_EC_UINT_BITS))) ft in
    let '(st3, lo) := od_ec_dec_bits st2 ftb in
    let t :=
      Z.lor (u32 (Z.shiftl (Z.shiftr fs (15 - OD_EC_UINT_BITS)) ftb)) lo in
    if t <=? _ft then (st3, t) else (set_error st3 1, _ft)
  else
    let '(st1, fs) := od_ec_decode st _ft in
    let st2 := od_ec_dec_update st1 fs (u32 (fs + 1)) _ft in
    (st2, fs).

End UInt.

(** ** Calls *)

(** The operations of the decoder a caller has after [od_ec_dec_init]. *)
Inductive call : Type :=
| DecodeNormalized (ft : Z)
| Decode (ft : Z)
| DecodeBinNormalized
| DecodeBin (ftb : Z)
| Update (fl fh ft : Z)
| BitLogp (logp : Z)
| IcdfFt (icdf : list byte) (ft : Z)
| Icdf16Ft (icdf : list Z) (ft : Z)
| Icdf (icdf : list byte) (ftb : Z)
| Icdf16 (icdf : list Z) (ftb : Z)
| UInt (ft : Z)
| Bits (n : Z).

(** One call: the new context and the value returned ([Update] returns
    nothing, written 0); [None] when a table walk leaves its table. *)
Definition run (ub : Z) (c : call) (st : od_ec_dec) : option (od_ec_dec * Z) :=
  match c with
  | DecodeNormalized ft => Some (od_ec_decode_normalized st ft)
  | Decode ft => Some (od_ec_decode st ft)
  | DecodeBinNormalized => Some (od_ec_decode_bin_normalized st)
  | DecodeBin ftb => Some (od_ec_decode_bin st ftb)
  | Update fl fh ft => Some (od_ec_dec_update st fl fh ft, 0)
  | BitLogp logp => Some (od_ec_dec_bit_logp st logp)
  | IcdfFt t ft => od_ec_dec_icdf_ft st t ft
  | Icdf16Ft t ft => od_ec_dec_icdf16_ft st t ft
  | Icdf t ftb => od_ec_dec_icdf st t ftb
  | Icdf16 t ftb => od_ec_dec_icdf16 st t ftb
  | UInt ft => Some (od_ec_dec_uint ub st ft)
  | Bits n => Some (od_ec_dec_bits st n)
  end.

(** ** Invariants of the decoder and legal calls *)

(** What holds of the context between calls: the range is normalized, the
    window is below the range (the coded value lies inside the current
    interval), and, as long as [cnt] counts real bits, the bits of the window
    below them are still zero. *)
Record dec_ok (st : od_ec_dec) : Prop := mk_dec_ok {
  ok_rng : 0x8000 <= rng st < 0x10000;
  ok_val : 0 <= val st < rng st * 2 ^ 16;
  ok_cnt : 0 <= cnt st <= OD_EC_LOTS_OF_BITS;
  ok_offs : 0 <= offs st;
  ok_storage : storage st < 2 ^ 32;
  ok_fill : storage st <= offs st \/
            (cnt st <= 16 /\ val st mod 2 ^ (16 - cnt st) = 0)
}.

(** An inverse CDF below [hi]: [hi >= t[0] >= t[1] >= ... >= t[n-1] = 0]. *)
Fixpoint icdf_wf (tbl : list Z) (hi : Z) : Prop :=
  match tbl with
  | [] => False
  | x :: tbl' =>
      match tbl' with
      | [] => x = 0 /\ 0 <= hi
      | _ :: _ => 0 <= x <= hi /\ icdf_wf tbl' x
      end
  end.

(** The table of the comments of the source: "the values must be
    monotonically non-increasing, and the last value must be 0". *)
Fixpoint non_increasing (tbl : list Z) : Prop :=
  match tbl with
  | [] => True
  | x :: tbl' =>
      match tbl' with
      | [] => True
      | y :: _ => y <= x /\ non_increasing tbl'
      end
  end.

Definition icdf_table (tbl : list Z) : Prop :=
  tbl <> [] /\ non_increasing tbl /\ last tbl 1 = 0.

(** The value the decode call before an [od_ec_dec_update] returned, from the
    context that call left: the total was [ft], the shift is in [ext]. *)
Definition decoded (st : od_ec_dec) (ft : Z) : Z :=
  let d := rng st - ft * 2 ^ ext st in
  Z.shiftr (Z.max (Z.shiftr (top16 st) 1) (top16 st - d)) (ext st).

(** [od_ec_dec_update] is called as the source asks: after a decode call
    with the total [ft], whose shift is in [ext], and with [fl, fh) around the
    value that call returned. *)
Definition update_ok (st : od_ec_dec) (fl fh ft : Z) : Prop :=
  0 <= ext st /\
  ft * 2 ^ ext st <= rng st < 2 * (ft * 2 ^ ext st) /\
  0 <= fl /\ fl <= decoded st ft < fh /\ fh <= ft.

(** The arguments the comments of the source allow. *)
Definition legal (ub : Z) (st : od_ec_dec) (c : call) : Prop :=
  match c with
  | DecodeNormalized ft => 16384 <= ft <= 32767
  | Decode ft => 1 <= ft <= 32767
  | DecodeBinNormalized => True
  | DecodeBin ftb => 0 <= ftb <= 15
  | Update fl fh ft => update_ok st fl fh ft
  | BitLogp logp => 0 <= logp <= 15
  | IcdfFt t ft => 1 <= ft <= 32767 /\ icdf_wf (tbl8 t) ft
  | Icdf16Ft t ft => 1 <= ft <= 32767 /\ icdf_wf (tbl16 t) ft
  | Icdf t ftb => 0 <= ftb <= 15 /\ icdf_wf (tbl8 t) (2 ^ ftb)
  | Icdf16 t ftb => 0 <= ftb <= 15 /\ icdf_wf (tbl16 t) (2 ^ ftb)
  | UInt ft => 1 <= ub <= 14 /\ 1 <= ft < 2 ^ 32
  | Bits n => 0 <= n <= 25
  end.

(** The contexts a caller can see: [od_ec_dec_init] over a buffer, then any
    number of legal calls. *)
Inductive reachable (ub : Z) : od_ec_dec -> Prop :=
| reach_init : forall b n,
    0 <= n < 2 ^ 32 -> reachable ub (od_ec_dec_init b n)
| reach_call : forall st c st' v,
    reachable ub st -> legal ub st c -> run ub c st = Some (st', v) ->
    reachable ub st'.

(** The scaling of the total that [od_ec_decode] and the [_ft] table decoders
    start with, as a function of its own: the scaled total and the shift. *)
Definition ec_scale (_ft r : Z) : Z * Z :=
  let s := 15 - OD_ILOG_NZ (u32 (_ft - 1)) in
  let ft := u32 (Z.shiftl _ft s) in
  if u32 (Z.shiftl ft 1) <=? r then (u32 (Z.shiftl ft 1), s + 1) else (ft, s).

(** What a decode call with the total [ft] leaves: a context [st1] and a
    value [v] below [ft], such that [od_ec_dec_update] is legal for every
    [fl, fh) around [v]. *)
Definition decode_post (ft : Z) (st1 : od_ec_dec) (v : Z) : Prop :=
  dec_ok st1 /\ 0 <= v < ft /\
  forall fl fh, 0 <= fl <= v -> v < fh <= ft -> update_ok st1 fl fh ft.

(** The frequency [q] the table walk of [od_ec_dec_icdf_ft] compares the
    entries with, and the one of [od_ec_dec_icdf]. *)
Definition icdf_ft_q (st : od_ec_dec) (_ft : Z) : Z :=
  let d := u32 (rng st - fst (ec_scale _ft (rng st))) in
  u32 (_ft -
       u32 (Z.shiftr
              (OD_MAXI (s32 (Z.shiftr (val st) (OD_EC_WINDOW_SIZE - 15)))
                       (s32 (Z.shiftr (val st) (OD_EC_WINDOW_SIZE - 16) - d)))
              (snd (ec_scale _ft (rng st))))).

Definition icdf_q (st : od_ec_dec) (_ftb : Z) : Z :=
  let d := u32 (rng st - 32768) in
  u32 (u32 (Z.shiftl 1 _ftb) -
       u32 (Z.shiftr
              (OD_MAXI (s32 (Z.shiftr (val st) (OD_EC_WINDOW_SIZE - 15)))
                       (s32 (Z.shiftr (val st) (OD_EC_WINDOW_SIZE - 16) - d)))
              (s32 (15 - _ftb)))).

(** The end [od_ec_dec_update] and the table decoders share: the interval
    [u, v) from the scaled bounds [fl] and [fh], then normalization. *)
Definition ec_narrow (st : od_ec_dec) (d fl fh ret : Z) : od_ec_dec * Z :=
  let u := u32 (fl + OD_MINI fl d) in
  let v := u32 (fh + OD_MINI fh d) in
  od_ec_dec_normalize st
    (u32 (val st - u32 (Z.shiftl u (OD_EC_WINDOW_SIZE - 16))))
    (u32 (v - u)) ret.

(** The combined value [t] of [od_ec_dec_uint] for a total above
    [2^OD_EC_UINT_BITS], with the context the raw bits leave: the statements
    of that branch up to the test [t<=_ft]. *)
Definition uint_combined (ub : Z) (st : od_ec_dec) (_ft : Z)
    : od_ec_dec * Z :=
  let _ft := u32 (_ft - 1) in
  let ftb := OD_ILOG_NZ _ft - ub in
  let ft := u32 (Z.shiftl (u32 (Z.shiftr _ft ftb + 1)) (15 - ub)) in
  let fs :=
    Z.land (snd (od_ec_decode_normalized st ft))
           (u32 (Z.lnot (Z.shiftl 1 (15 - ub) - 1))) in
  let st2 :=
    od_ec_dec_update (fst (od_ec_decode_normalized st ft)) fs
      (u32 (fs + Z.shiftl 1 (15 - ub))) ft in
  (fst (od_ec_dec_bits st2 ftb),
   Z.lor (u32 (Z.shiftl (Z.shiftr fs (15 - ub)) ftb))
         (snd (od_ec_dec_bits st2 ftb))).

Definition is_table_call (c : call) : bool :=
  match c with
  | IcdfFt _ _ | Icdf16Ft _ _ | Icdf _ _ | Icdf16 _ _ => true
  | _ => false
  end.

(** [s] is the first index of [tbl] whose entry is below [q]. *)
Definition first_below (tbl : list Z) (q s : Z) : Prop :=
  0 <= s < Z.of_nat (length tbl) /\ icdf_at tbl s < q /\
  forall j, 0 <= j < s -> q <= icdf_at tbl j.

(** A buffer and a table to run the decoder on. *)
Definition sample_buf : list byte := [xa5; x3c; xff; x01; x80].

Definition sample_icdf : list byte := [x07; x06; x05; x04; x03; x02; x01; x00].

(** [n] calls of [od_ec_dec_bit_logp] in a row, with the values returned. *)
Fixpoint bit_logp_run (n : nat) (logp : Z) (st : od_ec_dec)
    : od_ec_dec * list Z :=
  match n with
  | O => (st, [])
  | S n' =>
      let '(st1, bit) := od_ec_dec_bit_logp st logp in
      let '(st2, bits) := bit_logp_run n' logp st1 in
      (st2, bit :: bits)
  end.

(** Calls that read raw bits from the end of the buffer. *)
Definition is_raw_call (c : call) : bool :=
  match c with
  | UInt _ | Bits _ => true
  | _ => false
  end.

(** Two contexts with the same buffer and the same raw-bit side. *)
Definition same_raw (st st' : od_ec_dec) : Prop :=
  buf st' = buf st /\ storage st' = storage st /\
  end_offs st' = end_offs st /\ end_window st' = end_window st /\
  nend_bits st' = nend_bits st.

(** A table decoder written with the calls a caller has: [od_ec_decode],
    the walk of the table with [q = ft - value], and [od_ec_dec_update] with
    the bounds of the symbol found; the scratch field [ext] is put back. *)
Definition icdf_ft_by_update (st : od_ec_dec) (tbl : list Z) (ft : Z)
    : option (od_ec_dec * Z) :=
  match icdf_walk tbl (u32 (ft - snd (od_ec_decode st ft))) 0 ft with
  | None => None
  | Some (ret, fl) =>
      Some (set_ext
              (od_ec_dec_update (fst (od_ec_decode st ft))
                 (u32 (ft - fl)) (u32 (ft - icdf_at tbl ret)) ft)
              (ext st),
            ret)
  end.

Definition icdf_by_update (st : od_ec_dec) (tbl : list Z) (ftb : Z)
    : option (od_ec_dec * Z) :=
  match icdf_walk tbl (u32 (2 ^ ftb - snd (od_ec_decode_bin st ftb))) 0
          (2 ^ ftb) with
  | None => None
  | Some (ret, fl) =>
      Some (set_ext
              (od_ec_dec_update (fst (od_ec_decode_bin st ftb))
                 (2 ^ ftb - fl) (2 ^ ftb - icdf_at tbl ret) (2 ^ ftb))
              (ext st),
            ret)
  end.

(** [od_ec_dec_bit_logp] written with [od_ec_decode_bin_normalized] and
    [od_ec_dec_update]: the zero owns [0, 32768 - 2^(15-logp)), the one the
    rest of [0, 32768). *)
Definition bit_logp_by_update (st : od_ec_dec) (logp : Z) : od_ec_dec * Z :=
  let v0 := 32768 - 2 ^ (15 - logp) in
  let st1 := fst (od_ec_decode_bin_normalized st) in
  let m := snd (od_ec_decode_bin_normalized st) in
  if v0 <=? m
  then (set_ext (od_ec_dec_update st1 v0 32768 32768) (ext st), 1)
  else (set_ext (od_ec_dec_update st1 0 v0 32768) (ext st), 0).

(** The number the last [n] bytes of the buffer make, the last byte least
    significant: what [od_ec_dec_bits] has read after [n] refill rounds. *)
Fixpoint raw_tail (b : list byte) (stor : Z) (n : nat) : Z :=
  match n with
  | O => 0
  | S n' =>
      raw_tail b stor n' +
      buf_at b (stor - 1 - Z.of_nat n') * 2 ^ (8 * Z.of_nat n')
  end.

(** The whole buffer read from its end. *)
Definition raw_stream (st : od_ec_dec) : Z :=
  raw_tail (buf st) (storage st) (Z.to_nat (storage st)).

(** The raw-bit side after [k] raw bits were taken: the end window holds
    the bytes read so far without their [k] low bits, and [nend_bits] counts
    the bits it holds, unless the buffer is used up and the sentinel is in
    place. *)
Definition raw_ok (st : od_ec_dec) (k : Z) : Prop :=
  0 <= k /\ 0 <= end_offs st <= storage st /\ storage st < 2 ^ 32 /\
  end_window st =
    raw_tail (buf st) (storage st) (Z.to_nat (end_offs st)) / 2 ^ k /\
  0 <= end_window st < 2 ^ 32 /\
  ((nend_bits st = 8 * end_offs st - k /\ 0 <= nend_bits st <= 32) \/
   (end_offs st = storage st /\
    0 <= nend_bits st <= OD_EC_LOTS_OF_BITS)).

(** The context over another buffer, and two buffers with the same bytes
    below [stor]. *)
Definition with_buf (st : od_ec_dec) (b : list byte) : od_ec_dec :=
  mk_dec b (storage st) (end_offs st) (end_window st) (nend_bits st)
         (nbits_total st) (offs st) (rng st) (val st) (cnt st) (ext st)
         (error st).

Definition same_bytes (b b' : list byte) (stor : Z) : Prop :=
  forall i, 0 <= i < stor -> buf_at b i = buf_at b' i.

(** * Properties *)

(** ** Machine integers *)

Lemma u32_small : forall x, 0 <= x < 2 ^ 32 -> u32 x = x.
Proof. intros x H. unfold u32. apply Z.mod_small. exact H. Qed.

Lemma u32_range : forall x, 0 <= u32 x < 2 ^ 32.
Proof. intro x. unfold u32. apply Z.mod_pos_bound. reflexivity. Qed.

Lemma s32_small : forall x, - 2 ^ 31 <= x < 2 ^ 31 -> s32 x = x.
Proof.
  intros x H. unfold s32, u32.
  destruct (Z_lt_le_dec x 0) as [Hn | Hp].
  - assert (E : x mod 2 ^ 32 = x + 2 ^ 32).
    { symmetry. apply (Z.mod_unique_pos _ _ (-1)); lia. }
    rewrite E. destruct (x + 2 ^ 32 <? 2 ^ 31) eqn:C.
    + apply Z.ltb_lt in C. lia.
    + lia.
  - rewrite Z.mod_small by lia.
    destruct (x <? 2 ^ 31) eqn:C.
    + reflexivity.
    + apply Z.ltb_ge in C. lia.
Qed.

Lemma shiftl_pow2 : forall x n, 0 <= n -> Z.shiftl x n = x * 2 ^ n.
Proof. intros. apply Z.shiftl_mul_pow2. assumption. Qed.

Lemma shiftr_pow2 : forall x n, 0 <= n -> Z.shiftr x n = x / 2 ^ n.
Proof. intros. apply Z.shiftr_div_pow2. assumption. Qed.

Lemma pow2_pos : forall n, 0 <= n -> 0 < 2 ^ n.
Proof. intros. apply Z.pow_pos_nonneg; lia. Qed.

Lemma byte_range : forall b i, 0 <= buf_at b i < 256.
Proof.
  intros b i. unfold buf_at.
  pose proof (Byte.to_N_bounded (nth (Z.to_nat i) b x00)). lia.
Qed.

Ltac zdiv := Z.to_euclidean_division_equations; nia.

Ltac proj_simpl :=
  cbn [fst snd buf storage end_offs end_window nend_bits nbits_total offs rng
       val cnt ext error set_ext set_error] in *.

Lemma ilog_spec : forall v, 1 <= v ->
  1 <= OD_ILOG_NZ v /\ 2 ^ (OD_ILOG_NZ v - 1) <= v < 2 ^ OD_ILOG_NZ v.
Proof.
  intros v Hv. unfold OD_ILOG_NZ.
  destruct (v <=? 0) eqn:C; [apply Z.leb_le in C; lia|].
  pose proof (Z.log2_nonneg v) as Hn.
  pose proof (Z.log2_spec v ltac:(lia)) as Hs.
  replace (Z.log2 v + 1 - 1) with (Z.log2 v) by lia.
  replace (Z.log2 v + 1) with (Z.succ (Z.log2 v)) by lia.
  split; [lia | exact Hs].
Qed.

Lemma ilog_unique : forall v k, 1 <= k -> 2 ^ (k - 1) <= v < 2 ^ k ->
  OD_ILOG_NZ v = k.
Proof.
  intros v k Hk Hv.
  assert (Hpos : 1 <= v) by (pose proof (pow2_pos (k - 1)); lia).
  destruct (ilog_spec v Hpos) as [H1 H2].
  assert (OD_ILOG_NZ v - 1 < k).
  { apply (Z.pow_lt_mono_r_iff 2); lia. }
  assert (k - 1 < OD_ILOG_NZ v).
  { apply (Z.pow_lt_mono_r_iff 2); lia. }
  lia.
Qed.

Lemma ilog_le : forall v n, 0 <= n -> 1 <= v < 2 ^ n -> OD_ILOG_NZ v <= n.
Proof.
  intros v n Hn Hv. destruct (ilog_spec v ltac:(lia)) as [H1 H2].
  assert (OD_ILOG_NZ v - 1 < n).
  { apply (Z.pow_lt_mono_r_iff 2); lia. }
  lia.
Qed.

(** The shift of [od_ec_dec_normalize] brings a range of 1 to 16 bits back
    to exactly 16 bits. *)
Lemma norm_shift : forall r, 1 <= r < 65536 ->
  0 <= 16 - OD_ILOG_NZ r <= 15 /\
  32768 <= r * 2 ^ (16 - OD_ILOG_NZ r) < 65536.
Proof.
  intros r Hr.
  destruct (ilog_spec r ltac:(lia)) as [H1 [H2 H3]].
  pose proof (ilog_le r 16 ltac:(lia) ltac:(lia)) as H4.
  set (k := OD_ILOG_NZ r) in *.
  assert (E15 : 2 ^ (k - 1) * 2 ^ (16 - k) = 32768).
  { rewrite <- Z.pow_add_r by lia. replace (k - 1 + (16 - k)) with 15 by lia.
    reflexivity. }
  assert (E16 : 2 ^ k * 2 ^ (16 - k) = 65536).
  { rewrite <- Z.pow_add_r by lia. replace (k + (16 - k)) with 16 by lia.
    reflexivity. }
  pose proof (pow2_pos (16 - k) ltac:(lia)).
  split; [lia | nia].
Qed.

Lemma land_disjoint : forall a b n, 0 <= n -> (2 ^ n | a) -> 0 <= b < 2 ^ n ->
  Z.land a b = 0.
Proof.
  intros a b n Hn [k Hk] Hb. subst a.
  apply Z.bits_inj'. intros i Hi.
  rewrite Z.land_spec, Z.bits_0.
  destruct (Z_lt_le_dec i n) as [Hlt | Hge].
  - rewrite Z.mul_pow2_bits_low by lia. reflexivity.
  - rewrite <- (Z.mod_small b (2 ^ n)) by lia.
    rewrite Z.mod_pow2_bits_high by lia. apply andb_false_r.
Qed.

Lemma lor_disjoint : forall a b n, 0 <= n -> (2 ^ n | a) -> 0 <= b < 2 ^ n ->
  Z.lor a b = a + b.
Proof.
  intros a b n Hn Ha Hb.
  pose proof (land_disjoint a b n Hn Ha Hb) as H0.
  rewrite <- (Z.lxor_lor a b H0). symmetry. apply Z.add_nocarry_lxor. exact H0.
Qed.

Lemma pow2_divide : forall m n, 0 <= m <= n -> (2 ^ m | 2 ^ n).
Proof.
  intros m n H. exists (2 ^ (n - m)).
  rewrite <- Z.pow_add_r by lia. f_equal. lia.
Qed.

Lemma divide_step : forall P a B, 0 < P -> (P | a) -> (P | B) -> a < B ->
  a + P <= B.
Proof.
  intros P a B HP [x Hx] [y Hy] H. subst.
  assert (x < y) by (apply (Z.mul_lt_mono_pos_r P); assumption).
  assert (E : (x + 1) * P <= y * P) by (apply Z.mul_le_mono_nonneg_r; lia).
  lia.
Qed.

(** ** The byte loop *)

Lemma refill_exhausted : forall fuel b stor s c o dif,
  0 <= s -> stor <= o ->
  od_ec_dec_refill (S fuel) b stor s c o dif = (OD_EC_LOTS_OF_BITS, o, dif).
Proof.
  intros. simpl.
  destruct (s <? 0) eqn:C; [apply Z.ltb_lt in C; lia|].
  destruct (stor <=? o) eqn:D; [reflexivity | apply Z.leb_gt in D; lia].
Qed.

Lemma refill_ok : forall fuel b stor s c o dif B,
  c = 8 - s -> -8 <= s <= 23 -> s < 8 * Z.of_nat fuel ->
  0 <= o -> stor < 2 ^ 32 ->
  0 <= dif < B -> B <= 2 ^ 32 ->
  (2 ^ (s + 8) | dif) -> (2 ^ (s + 8) | B) ->
  forall c' o' dif',
  od_ec_dec_refill fuel b stor s c o dif = (c', o', dif') ->
  0 <= dif' < B /\ 0 <= o' /\
  ((c' = OD_EC_LOTS_OF_BITS /\ stor <= o') \/
   (9 <= c' <= 16 /\ (2 ^ (16 - c') | dif'))).
Proof.
  induction fuel as [| fuel IH];
    intros b stor s c o dif B Hc Hs Hf Ho Hst Hd HB Hdd HdB c' o' dif' E.
  - simpl in E. inversion E; subst. 
    split; [lia|]. split; [lia|]. right. split; [lia|].
    replace (16 - (8 - s)) with (s + 8) by lia. exact Hdd.
  - simpl in E. destruct (s <? 0) eqn:C.
    + apply Z.ltb_lt in C. inversion E; subst.
      split; [lia|]. split; [lia|]. right. split; [lia|].
      replace (16 - (8 - s)) with (s + 8) by lia. exact Hdd.
    + apply Z.ltb_ge in C. destruct (stor <=? o) eqn:D.
      * apply Z.leb_le in D. inversion E; subst.
        split; [lia|]. split; [lia|]. left. split; [reflexivity | lia].
      * apply Z.leb_gt in D.
        pose proof (byte_range b o) as Hb.
        pose proof (pow2_pos s C) as Hp.
        assert (Ep : 2 ^ (s + 8) = 256 * 2 ^ s).
        { rewrite Z.pow_add_r by lia. change (2 ^ 8) with 256. lia. }
        assert (Hp23 : 2 ^ s <= 2 ^ 23) by (apply Z.pow_le_mono_r; lia).
        change (2 ^ 23) with 8388608 in Hp23.
        rewrite (u32_small (o + 1)) in E by lia.
        rewrite shiftl_pow2 in E by lia.
        rewrite (u32_small (buf_at b o * 2 ^ s)) in E
          by (change (2 ^ 32) with 4294967296; nia).
        rewrite (lor_disjoint dif (buf_at b o * 2 ^ s) (s + 8)) in E;
          [| lia | exact Hdd | nia].
        pose proof (divide_step (2 ^ (s + 8)) dif B ltac:(lia) Hdd HdB
                      ltac:(lia)) as Hstep.
        assert (Hds : (2 ^ s | 2 ^ (s + 8))) by (apply pow2_divide; lia).
        eapply (IH b stor (s - 8) (c + 8) (o + 1)
                  (dif + buf_at b o * 2 ^ s) B); [ | | | | | | | | | exact E].
        all: replace (s - 8 + 8) with s by lia; try nia.
        -- apply Z.divide_add_r.
           ++ apply (Z.divide_trans _ (2 ^ (s + 8))); assumption.
           ++ apply Z.divide_factor_r.
        -- apply (Z.divide_trans _ (2 ^ (s + 8))); assumption.
Qed.

(** Enough fuel: more rounds than [refill_fuel] gives change nothing. *)
Lemma refill_fuel_enough : forall s, s < 8 * Z.of_nat (refill_fuel s).
Proof.
  intro s. unfold refill_fuel.
  destruct (Z_lt_le_dec s 0) as [Hn | Hp]; [lia|].
  rewrite Z2Nat.id by zdiv. zdiv.
Qed.

Lemma refill_more_fuel : forall fuel k b stor s c o dif,
  s < 8 * Z.of_nat fuel ->
  od_ec_dec_refill (fuel + k) b stor s c o dif =
  od_ec_dec_refill fuel b stor s c o dif.
Proof.
  induction fuel as [| fuel IH]; intros k b stor s c o dif Hf.
  - simpl in Hf. destruct k as [| k]; simpl; [reflexivity|].
    destruct (s <? 0) eqn:C; [reflexivity | apply Z.ltb_ge in C; lia].
  - simpl. destruct (s <? 0); [reflexivity|].
    destruct (stor <=? o); [reflexivity|].
    apply IH. lia.
Qed.

(** ** od_ec_dec_normalize *)

Ltac norm_cases :=
  unfold od_ec_dec_normalize;
  match goal with
  | |- context [if ?c <? 0 then _ else _] => destruct (c <? 0)
  end;
  [ match goal with
    | |- context [od_ec_dec_refill ?f ?b ?st ?s ?c ?o ?d] =>
        destruct (od_ec_dec_refill f b st s c o d) as [[? ?] ?]
    end | ]; reflexivity.

Lemma normalize_ret : forall st dif r ret,
  snd (od_ec_dec_normalize st dif r ret) = ret.
Proof. intros. norm_cases. Qed.

Lemma normalize_nbits_total : forall st dif r ret,
  nbits_total (fst (od_ec_dec_normalize st dif r ret)) =
  nbits_total st + (16 - OD_ILOG_NZ r).
Proof. intros. norm_cases. Qed.

Lemma normalize_rng : forall st dif r ret,
  rng (fst (od_ec_dec_normalize st dif r ret)) =
  u32 (Z.shiftl r (16 - OD_ILOG_NZ r)).
Proof. intros. norm_cases. Qed.

Lemma normalize_error : forall st dif r ret,
  error (fst (od_ec_dec_normalize st dif r ret)) = error st.
Proof. intros. norm_cases. Qed.

Lemma normalize_storage : forall st dif r ret,
  storage (fst (od_ec_dec_normalize st dif r ret)) = storage st.
Proof. intros. norm_cases. Qed.

Lemma normalize_rng_bounds : forall st dif r ret, 1 <= r < 65536 ->
  0x8000 <= rng (fst (od_ec_dec_normalize st dif r ret)) < 0x10000.
Proof.
  intros st dif r ret Hr. rewrite normalize_rng.
  destruct (norm_shift r Hr) as [Hd HR].
  rewrite shiftl_pow2 by lia. rewrite u32_small by lia. lia.
Qed.

Lemma mod0_divide : forall a n, 0 <= n -> a mod 2 ^ n = 0 <-> (2 ^ n | a).
Proof.
  intros a n Hn. apply Z.mod_divide. pose proof (pow2_pos n Hn). lia.
Qed.

(** Normalization establishes the invariant from a window below the new
    range. *)
Lemma normalize_ok : forall st dif r ret,
  0 <= cnt st <= OD_EC_LOTS_OF_BITS -> 0 <= offs st -> storage st < 2 ^ 32 ->
  1 <= r < 65536 -> 0 <= dif < r * 2 ^ 16 ->
  (storage st <= offs st \/
   (cnt st <= 16 /\ dif mod 2 ^ (16 - cnt st) = 0)) ->
  dec_ok (fst (od_ec_dec_normalize st dif r ret)).
Proof.
  intros st dif r ret Hc Ho Hs Hr Hd Hfill.
  destruct (norm_shift r Hr) as [Hdr HR].
  unfold od_ec_dec_normalize.
  set (d := 16 - OD_ILOG_NZ r) in *.
  pose proof (pow2_pos d ltac:(lia)) as Hpd.
  assert (Hdif : 0 <= dif * 2 ^ d < r * 2 ^ d * 2 ^ 16) by nia.
  rewrite !shiftl_pow2 by lia.
  rewrite (u32_small (dif * 2 ^ d)) by lia.
  rewrite (u32_small (r * 2 ^ d)) by lia.
  unfold OD_EC_LOTS_OF_BITS in *.
  destruct (cnt st - d <? 0) eqn:C.
  - apply Z.ltb_lt in C.
    set (s := OD_EC_WINDOW_SIZE - 9 - (cnt st - d + 15)).
    assert (Hsv : 9 <= s <= 23) by (unfold s, OD_EC_WINDOW_SIZE; lia).
    destruct (od_ec_dec_refill (refill_fuel s) (buf st) (storage st) s
                (cnt st - d) (offs st) (dif * 2 ^ d)) as [[c' o'] dif'] eqn:E.
    proj_simpl.
    destruct Hfill as [Hex | [Hc16 Hz]].
    + assert (Hfuel : exists n, refill_fuel s = S n).
      { pose proof (refill_fuel_enough s).
        destruct (refill_fuel s); [lia | eauto]. }
      destruct Hfuel as [n Hn]. rewrite Hn in E.
      rewrite refill_exhausted in E by lia. inversion E; subst.
      constructor; proj_simpl; unfold OD_EC_LOTS_OF_BITS; try lia.
    + apply mod0_divide in Hz; [| lia].
      destruct (refill_ok (refill_fuel s) (buf st) (storage st) s
                  (cnt st - d) (offs st) (dif * 2 ^ d) (r * 2 ^ d * 2 ^ 16))
        with (c' := c') (o' := o') (dif' := dif')
        as [Hd' [Ho' Hc']]; try lia; try exact E.
      * unfold s, OD_EC_WINDOW_SIZE. lia.
      * apply refill_fuel_enough.
      * replace (s + 8) with ((16 - cnt st) + d)
          by (unfold s, OD_EC_WINDOW_SIZE; lia).
        rewrite Z.pow_add_r by lia. apply Z.mul_divide_mono_r. exact Hz.
      * replace (r * 2 ^ d * 2 ^ 16) with (r * 2 ^ (d + 16))
          by (rewrite Z.pow_add_r by lia; ring).
        apply Z.divide_mul_r. apply pow2_divide.
        unfold s, OD_EC_WINDOW_SIZE. lia.
      * unfold OD_EC_LOTS_OF_BITS in Hc'.
        destruct Hc' as [[Hx Hy] | [Hx Hy]];
          constructor; proj_simpl; unfold OD_EC_LOTS_OF_BITS; try lia.
        right. split; [lia|]. apply mod0_divide; [lia | exact Hy].
  - apply Z.ltb_ge in C. proj_simpl.
    constructor; proj_simpl; unfold OD_EC_LOTS_OF_BITS; try lia.
    destruct Hfill as [Hex | [Hc16 Hz]]; [left; exact Hex | right].
    split; [lia|]. apply mod0_divide; [lia|].
    apply mod0_divide in Hz; [| lia].
    replace (16 - (cnt st - d)) with ((16 - cnt st) + d) by lia.
    rewrite Z.pow_add_r by lia. apply Z.mul_divide_mono_r. exact Hz.
Qed.

(** ** od_ec_dec_init *)

Lemma init_rng : forall b n, rng (od_ec_dec_init b n) = 0x8000.
Proof.
  intros b n. unfold od_ec_dec_init.
  destruct (od_ec_dec_refill _ _ _ _ _ _ _) as [[c o] dif]. reflexivity.
Qed.

Lemma init_ok : forall b n, 0 <= n < 2 ^ 32 -> dec_ok (od_ec_dec_init b n).
Proof.
  intros b n Hn. unfold od_ec_dec_init.
  destruct (od_ec_dec_refill (refill_fuel (OD_EC_WINDOW_SIZE - 9)) b n
              (OD_EC_WINDOW_SIZE - 9) (-15) 0 0) as [[c o] dif] eqn:E.
  assert (H : 0 <= dif < 2 ^ 31 /\ 0 <= o /\
              ((c = OD_EC_LOTS_OF_BITS /\ n <= o) \/
               (9 <= c <= 16 /\ (2 ^ (16 - c) | dif)))).
  { apply (refill_ok (refill_fuel (OD_EC_WINDOW_SIZE - 9)) b n
             (OD_EC_WINDOW_SIZE - 9) (-15) 0 0 (2 ^ 31)); try exact E;
      unfold OD_EC_WINDOW_SIZE; try lia.
    - apply refill_fuel_enough.
    - apply Z.divide_0_r.
    - apply Z.divide_refl. }
  destruct H as [Hd [Ho Hc]].
  unfold OD_EC_LOTS_OF_BITS in Hc.
  destruct Hc as [[Hx Hy] | [Hx Hy]];
    constructor; proj_simpl; unfold OD_EC_LOTS_OF_BITS; try lia.
  right. split; [lia|]. apply mod0_divide; [lia | exact Hy].
Qed.

(** ** The arithmetic of one symbol *)

(** With the window [D] below the range [r] and a scaled total [fts] in
    (r/2, r], the decoded value is below the total. *)
Lemma value_below_total : forall D r fts,
  0 <= D < r -> fts <= r < 2 * fts ->
  0 <= Z.max (D / 2) (D - (r - fts)) < fts.
Proof. intros. zdiv. Qed.

(** The interval [u, v) that [od_ec_dec_update] and the table decoders cut
    out of the range contains the window, and is not empty. *)
Lemma interval_step : forall D r fts fls fhs,
  0 <= D < r -> fts <= r < 2 * fts -> 0 <= fls -> fhs <= fts ->
  fls <= Z.max (D / 2) (D - (r - fts)) < fhs ->
  fls + Z.min fls (r - fts) <= D < fhs + Z.min fhs (r - fts) /\
  1 <= (fhs + Z.min fhs (r - fts)) - (fls + Z.min fls (r - fts)) /\
  fhs + Z.min fhs (r - fts) <= r.
Proof. intros. zdiv. Qed.

Lemma window_step : forall v u w,
  0 <= v -> u <= v / 2 ^ 16 < w ->
  0 <= v - u * 2 ^ 16 < (w - u) * 2 ^ 16.
Proof. intros. change (2 ^ 16) with 65536 in *. zdiv. Qed.

Lemma top16_eq : forall st, dec_ok st ->
  top16 st = val st / 2 ^ 16 /\ 0 <= top16 st < rng st.
Proof.
  intros st [Hr Hv _ _ _ _]. unfold top16, OD_EC_WINDOW_SIZE.
  change (32 - 16) with 16. rewrite shiftr_pow2 by lia.
  change (2 ^ 16) with 65536 in *.
  rewrite u32_small by (change (2 ^ 32) with 4294967296; zdiv).
  split; [reflexivity | zdiv].
Qed.

Lemma ec_scale_spec : forall ft r, 1 <= ft <= 32767 -> 32768 <= r < 65536 ->
  0 <= snd (ec_scale ft r) <= 15 /\
  fst (ec_scale ft r) = ft * 2 ^ snd (ec_scale ft r) /\
  fst (ec_scale ft r) <= r < 2 * fst (ec_scale ft r).
Proof.
  intros ft r Hft Hr. unfold ec_scale.
  rewrite (u32_small (ft - 1)) by lia.
  assert (Hk : exists k, 0 <= k <= 15 /\ OD_ILOG_NZ (ft - 1) = k /\
                         2 ^ 14 < ft * 2 ^ (15 - k) <= 2 ^ 15).
  { destruct (Z.eq_dec ft 1) as [-> | Hne].
    - exists 0. repeat split; try lia; reflexivity.
    - destruct (ilog_spec (ft - 1) ltac:(lia)) as [H1 [H2 H3]].
      pose proof (ilog_le (ft - 1) 15 ltac:(lia) ltac:(lia)) as H4.
      exists (OD_ILOG_NZ (ft - 1)).
      set (k := OD_ILOG_NZ (ft - 1)) in *.
      assert (E14 : 2 ^ (k - 1) * 2 ^ (15 - k) = 2 ^ 14).
      { rewrite <- Z.pow_add_r by lia. f_equal. lia. }
      assert (E15 : 2 ^ k * 2 ^ (15 - k) = 2 ^ 15).
      { rewrite <- Z.pow_add_r by lia. f_equal. lia. }
      pose proof (pow2_pos (15 - k) ltac:(lia)).
      repeat split; try lia; nia. }
  destruct Hk as [k [Hk [Ek Hb]]]. rewrite Ek.
  change (2 ^ 14) with 16384 in Hb. change (2 ^ 15) with 32768 in Hb.
  rewrite (shiftl_pow2 ft) by lia.
  rewrite (u32_small (ft * 2 ^ (15 - k))) by lia.
  rewrite shiftl_pow2 by lia. change (2 ^ 1) with 2.
  rewrite (u32_small (ft * 2 ^ (15 - k) * 2)) by lia.
  destruct (ft * 2 ^ (15 - k) * 2 <=? r) eqn:C; cbn [fst snd].
  - apply Z.leb_le in C.
    assert (k <> 0).
    { intros ->. change (2 ^ (15 - 0)) with 32768 in *. lia. }
    replace (15 - k + 1) with (Z.succ (15 - k)) by lia.
    rewrite Z.pow_succ_r by lia. lia.
  - apply Z.leb_gt in C. lia.
Qed.

Lemma div_bracket : forall M P lo hi, 0 < P -> lo <= M / P < hi ->
  lo * P <= M < hi * P.
Proof. intros. zdiv. Qed.

Lemma fill_sub : forall v u c, 0 <= c <= 16 ->
  v mod 2 ^ (16 - c) = 0 -> (v - u * 2 ^ 16) mod 2 ^ (16 - c) = 0.
Proof.
  intros v u c Hc Hv. apply mod0_divide; [lia|].
  apply mod0_divide in Hv; [| lia].
  apply Z.divide_sub_r; [exact Hv|].
  apply Z.divide_mul_r. apply pow2_divide. lia.
Qed.

Lemma fill_keep : forall st u, dec_ok st ->
  storage st <= offs st \/
  (cnt st <= 16 /\ (val st - u * 2 ^ 16) mod 2 ^ (16 - cnt st) = 0).
Proof.
  intros st u [_ _ Hc _ _ Hf].
  destruct Hf as [Hf | [Hf1 Hf2]]; [left; exact Hf | right].
  split; [exact Hf1 | apply fill_sub; [lia | exact Hf2]].
Qed.

(** The narrowing both [od_ec_dec_update] and the table decoders end with:
    from scaled bounds [fls, fhs) around the decoded value to a normalized
    context. *)
Lemma narrow_ok : forall st fts fls fhs ret,
  dec_ok st ->
  fts <= rng st < 2 * fts -> 0 <= fls -> fhs <= fts ->
  fls <= Z.max (top16 st / 2) (top16 st - (rng st - fts)) < fhs ->
  let d := u32 (rng st - fts) in
  let u := u32 (fls + OD_MINI fls d) in
  let v := u32 (fhs + OD_MINI fhs d) in
  dec_ok (fst (od_ec_dec_normalize st
                 (u32 (val st - u32 (Z.shiftl u (OD_EC_WINDOW_SIZE - 16))))
                 (u32 (v - u)) ret)).
Proof.
  intros st fts fls fhs ret Hok Hft Hfl Hfh HM.
  destruct (top16_eq st Hok) as [ED HD].
  pose proof Hok as [Hr Hv Hc Ho Hs Hf].
  destruct (interval_step (top16 st) (rng st) fts fls fhs HD Hft Hfl Hfh HM)
    as [Hu [Hvu Hvr]].
  cbv zeta. unfold OD_MINI, OD_EC_WINDOW_SIZE. change (32 - 16) with 16.
  rewrite (u32_small (rng st - fts)) by lia.
  rewrite (u32_small (fls + _)) by lia.
  rewrite (u32_small (fhs + _)) by lia.
  set (u := fls + Z.min fls (rng st - fts)) in *.
  set (v := fhs + Z.min fhs (rng st - fts)) in *.
  rewrite (u32_small (v - u)) by lia.
  rewrite shiftl_pow2 by lia.
  rewrite ED in Hu.
  pose proof (window_step (val st) u v ltac:(lia) Hu) as Hw.
  change (2 ^ 16) with 65536 in *. change (2 ^ 32) with 4294967296 in *.
  rewrite (u32_small (u * 65536))
    by (change (2 ^ 32) with 4294967296; lia).
  rewrite (u32_small (val st - u * 65536))
    by (change (2 ^ 32) with 4294967296; lia).
  apply normalize_ok; try lia.
  change 65536 with (2 ^ 16). apply fill_keep. exact Hok.
Qed.

(** ** od_ec_dec_update *)

Lemma update_preserves : forall st fl fh ft,
  dec_ok st -> update_ok st fl fh ft ->
  dec_ok (od_ec_dec_update st fl fh ft).
Proof.
  intros st fl fh ft Hok [Hs [Hft [Hfl [Hdec Hfh]]]].
  pose proof Hok as [Hr _ _ _ _ _].
  pose proof (pow2_pos (ext st) Hs) as HP.
  unfold decoded in Hdec. rewrite !shiftr_pow2 in Hdec by lia.
  change (2 ^ 1) with 2 in Hdec.
  apply div_bracket in Hdec; [| exact HP].
  unfold od_ec_dec_update.
  rewrite (shiftl_pow2 fl), (shiftl_pow2 fh), (shiftl_pow2 ft) by lia.
  set (P := 2 ^ ext st) in *.
  assert (Hb : fl * P <= fh * P <= ft * P) by nia.
  rewrite (u32_small (fl * P)) by nia.
  rewrite (u32_small (fh * P)) by nia.
  rewrite (u32_small (ft * P)) by nia.
  apply (narrow_ok st (ft * P) (fl * P) (fh * P) 0); try assumption; nia.
Qed.

(** ** od_ec_dec_bit_logp *)

Lemma bit_logp_preserves : forall st logp,
  dec_ok st -> 0 <= logp <= 15 ->
  dec_ok (fst (od_ec_dec_bit_logp st logp)).
Proof.
  intros st logp Hok Hl.
  pose proof Hok as [Hr Hv Hc Ho Hs Hf].
  unfold od_ec_dec_bit_logp, OD_MINI, OD_EC_WINDOW_SIZE.
  change (32 - 16) with 16.
  rewrite (u32_small (15 - logp)) by lia.
  rewrite (shiftl_pow2 1) by lia. rewrite Z.mul_1_l.
  assert (Hp : 1 <= 2 ^ (15 - logp) <= 2 ^ 15).
  { split; [pose proof (pow2_pos (15 - logp)); lia|].
    apply Z.pow_le_mono_r; lia. }
  change (2 ^ 15) with 32768 in Hp.
  rewrite s32_small by lia.
  set (p := 2 ^ (15 - logp)) in *.
  rewrite (u32_small (32768 - p)) by lia.
  rewrite (u32_small (rng st - 32768)) by lia.
  set (v := 32768 - p + Z.min (32768 - p) (rng st - 32768)).
  assert (Hvb : 0 <= v < rng st /\ 1 <= rng st - v) by (unfold v; lia).
  rewrite (u32_small v) by lia.
  rewrite shiftl_pow2 by lia.
  change (2 ^ 16) with 65536 in *. change (2 ^ 32) with 4294967296 in *.
  rewrite (u32_small (v * 65536))
    by (change (2 ^ 32) with 4294967296; lia).
  destruct (v * 65536 <=? val st) eqn:C; cbn [Z.eqb Pos.eqb].
  - apply Z.leb_le in C.
    rewrite (u32_small (val st - v * 65536))
      by (change (2 ^ 32) with 4294967296; lia).
    rewrite (u32_small (rng st - v)) by lia.
    apply normalize_ok; try lia.
    change 65536 with (2 ^ 16). apply fill_keep. exact Hok.
  - apply Z.leb_gt in C.
    apply normalize_ok; try lia.
Qed.

(** ** The decode calls *)

Lemma set_ext_ok : forall st s, dec_ok st -> dec_ok (set_ext st s).
Proof. intros st s [? ? ? ? ? ?]. constructor; assumption. Qed.

Lemma maxi_value : forall D r fts,
  0 <= D < r -> 32768 <= r < 65536 -> fts <= r < 2 * fts ->
  OD_MAXI (s32 (Z.shiftr D 1)) (s32 (D - u32 (r - fts))) =
  Z.max (D / 2) (D - (r - fts)).
Proof.
  intros D r fts HD Hr Hf. unfold OD_MAXI.
  rewrite shiftr_pow2 by lia. change (2 ^ 1) with 2.
  rewrite (u32_small (r - fts)) by lia.
  rewrite (s32_small (D / 2)) by zdiv.
  rewrite (s32_small (D - (r - fts))) by lia.
  reflexivity.
Qed.

Lemma decode_core : forall st ft fts s,
  dec_ok st -> 0 <= s -> fts = ft * 2 ^ s -> fts <= rng st < 2 * fts ->
  decode_post ft (set_ext st s)
    (u32 (Z.shiftr (OD_MAXI (s32 (Z.shiftr (top16 st) 1))
                            (s32 (top16 st - u32 (rng st - fts)))) s)).
Proof.
  intros st ft fts s Hok Hs Efts Hf.
  pose proof Hok as [Hr _ _ _ _ _].
  destruct (top16_eq st Hok) as [_ HD].
  rewrite (maxi_value _ _ _ HD Hr Hf).
  pose proof (value_below_total _ _ _ HD Hf) as HM.
  pose proof (pow2_pos s Hs) as HP.
  set (M := Z.max (top16 st / 2) (top16 st - (rng st - fts))) in *.
  rewrite shiftr_pow2 by lia.
  assert (Hv : 0 <= M / 2 ^ s < ft).
  { split; [apply Z.div_pos; lia|].
    apply Z.div_lt_upper_bound; [lia|]. rewrite Z.mul_comm. lia. }
  assert (Hle : ft <= fts) by nia.
  rewrite u32_small by lia.
  split; [apply set_ext_ok; exact Hok|]. split; [exact Hv|].
  intros fl fh Hfl Hfh. unfold update_ok, decoded. proj_simpl.
  change (top16 (set_ext st s)) with (top16 st).
  rewrite <- Efts. rewrite !shiftr_pow2 by lia. change (2 ^ 1) with 2.
  fold M. repeat split; lia.
Qed.

Lemma decode_normalized_post : forall st ft,
  dec_ok st -> 16384 <= ft <= 32768 ->
  decode_post ft (fst (od_ec_decode_normalized st ft))
                 (snd (od_ec_decode_normalized st ft)).
Proof.
  intros st ft Hok Hft. pose proof Hok as [Hr _ _ _ _ _].
  unfold od_ec_decode_normalized. cbn [fst snd].
  rewrite (shiftl_pow2 ft 1) by lia. change (2 ^ 1) with 2.
  rewrite (u32_small (ft * 2)) by lia.
  destruct (ft * 2 <=? rng st) eqn:C.
  - apply Z.leb_le in C. apply decode_core; try assumption; try lia.
    + rewrite shiftl_pow2 by lia. rewrite u32_small; lia.
    + rewrite shiftl_pow2 by lia. rewrite u32_small; lia.
  - apply Z.leb_gt in C. apply decode_core; try assumption; try lia.
    + rewrite shiftl_pow2 by lia. rewrite u32_small; lia.
    + rewrite shiftl_pow2 by lia. rewrite u32_small; lia.
Qed.

Lemma od_ec_decode_scale : forall st ft,
  od_ec_decode st ft =
  (set_ext st (snd (ec_scale ft (rng st))),
   u32 (Z.shiftr
          (OD_MAXI (s32 (Z.shiftr (top16 st) 1))
             (s32 (top16 st - u32 (rng st - fst (ec_scale ft (rng st))))))
          (snd (ec_scale ft (rng st))))).
Proof.
  intros st ft. unfold od_ec_decode, ec_scale.
  destruct (_ <=? rng st); reflexivity.
Qed.

Lemma decode_any_post : forall st ft,
  dec_ok st -> 1 <= ft <= 32767 ->
  decode_post ft (fst (od_ec_decode st ft)) (snd (od_ec_decode st ft)).
Proof.
  intros st ft Hok Hft. pose proof Hok as [Hr _ _ _ _ _].
  rewrite od_ec_decode_scale. cbn [fst snd].
  destruct (ec_scale_spec ft (rng st) Hft Hr) as [Hs [Ef Hb]].
  apply decode_core; try assumption; lia.
Qed.

Lemma decode_bin_normalized_post : forall st,
  dec_ok st ->
  decode_post 32768 (fst (od_ec_decode_bin_normalized st))
                    (snd (od_ec_decode_bin_normalized st)).
Proof.
  intros st Hok. pose proof Hok as [Hr _ _ _ _ _].
  unfold od_ec_decode_bin_normalized. cbn [fst snd].
  rewrite <- (Z.shiftr_0_r (OD_MAXI _ _)).
  apply decode_core; try assumption; try lia.
Qed.

Lemma decode_bin_post : forall st ftb,
  dec_ok st -> 0 <= ftb <= 15 ->
  decode_post (2 ^ ftb) (fst (od_ec_decode_bin st ftb))
                        (snd (od_ec_decode_bin st ftb)).
Proof.
  intros st ftb Hok Hb. pose proof Hok as [Hr _ _ _ _ _].
  unfold od_ec_decode_bin. cbn [fst snd].
  rewrite s32_small by lia.
  apply decode_core; try assumption; try lia.
  rewrite <- Z.pow_add_r by lia. replace (ftb + (15 - ftb)) with 15 by lia.
  reflexivity.
Qed.

(** ** The table decoders *)

Lemma icdf_ft_body_eq : forall st tbl ft,
  icdf_ft_body st tbl ft =
  match icdf_walk tbl (icdf_ft_q st ft) 0 ft with
  | None => None
  | Some (ret, fl) =>
      Some (ec_narrow st (u32 (rng st - fst (ec_scale ft (rng st))))
              (u32 (Z.shiftl (u32 (ft - fl)) (snd (ec_scale ft (rng st)))))
              (u32 (Z.shiftl (u32 (ft - icdf_at tbl ret))
                             (snd (ec_scale ft (rng st)))))
              ret)
  end.
Proof.
  intros st tbl ft. unfold icdf_ft_body, icdf_ft_q, ec_scale, ec_narrow.
  destruct (_ <=? rng st); reflexivity.
Qed.

Lemma icdf_body_eq : forall st tbl ftb,
  icdf_body st tbl ftb =
  match icdf_walk tbl (icdf_q st ftb) 0 (u32 (Z.shiftl 1 ftb)) with
  | None => None
  | Some (ret, fl) =>
      Some (ec_narrow st (u32 (rng st - 32768))
              (u32 (32768 - u32 (Z.shiftl fl (s32 (15 - ftb)))))
              (u32 (32768 - Z.shiftl (icdf_at tbl ret) (s32 (15 - ftb))))
              ret)
  end.
Proof. intros. reflexivity. Qed.

(** The walk stops inside a table that ends with 0, at the first entry below
    [q]. *)
Lemma icdf_walk_stops : forall tbl q ret fl,
  1 <= q -> last tbl 1 = 0 ->
  exists i fl',
    icdf_walk tbl q ret fl = Some (ret + Z.of_nat i, fl') /\
    (i < length tbl)%nat /\ nth i tbl 0 < q /\
    forall j, (j < i)%nat -> q <= nth j tbl 0.
Proof.
  induction tbl as [| x tbl IH]; intros q ret fl Hq Hlast.
  - simpl in Hlast. lia.
  - cbn [icdf_walk]. destruct (q <=? x) eqn:C.
    + apply Z.leb_le in C.
      assert (Hl : last tbl 1 = 0).
      { destruct tbl as [| y tbl']; [simpl in Hlast; lia | exact Hlast]. }
      destruct (IH q (ret + 1) x Hq Hl) as [i [fl' [E [Hi [Hn Hj]]]]].
      exists (S i), fl'. split; [rewrite E; f_equal; f_equal; lia|].
      split; [simpl; lia|]. split; [exact Hn|].
      intros j Hlt. destruct j as [| j]; [exact C | apply Hj; lia].
    + apply Z.leb_gt in C. exists O, fl.
      split; [f_equal; f_equal; lia|]. split; [simpl; lia|].
      split; [exact C | intros j Hj; lia].
Qed.

(** In a table below [hi] the walk also keeps [fl] between [q] and the
    bound, and stops at an entry that is not negative. *)
Lemma icdf_walk_wf : forall tbl hi q ret fl H,
  icdf_wf tbl hi -> 1 <= q -> q <= fl <= H -> hi <= H ->
  exists i fl',
    icdf_walk tbl q ret fl = Some (ret + Z.of_nat i, fl') /\
    q <= fl' <= H /\ 0 <= nth i tbl 0 < q.
Proof.
  induction tbl as [| x tbl IH]; intros hi q ret fl H Hwf Hq Hfl Hhi.
  - destruct Hwf.
  - cbn [icdf_walk]. destruct (q <=? x) eqn:C.
    + apply Z.leb_le in C. destruct tbl as [| y tbl'].
      * destruct Hwf as [-> _]. lia.
      * destruct Hwf as [Hx Hwf].
        destruct (IH x q (ret + 1) x H Hwf Hq ltac:(lia) ltac:(lia))
          as [i [fl' [E [Hb Hn]]]].
        exists (S i), fl'. split; [rewrite E; f_equal; f_equal; lia|].
        split; [exact Hb | exact Hn].
    + apply Z.leb_gt in C. exists O, fl.
      split; [f_equal; f_equal; lia|]. split; [exact Hfl|].
      cbn [nth]. destruct tbl as [| y tbl'].
      * destruct Hwf as [-> _]. lia.
      * destruct Hwf as [Hx _]. lia.
Qed.

Lemma icdf_wf_last : forall tbl hi, icdf_wf tbl hi -> last tbl 1 = 0.
Proof.
  induction tbl as [| x tbl IH]; intros hi Hwf; [destruct Hwf|].
  destruct tbl as [| y tbl'].
  - destruct Hwf as [-> _]. reflexivity.
  - destruct Hwf as [_ Hwf]. change (last (y :: tbl') 1 = 0).
    apply (IH x). exact Hwf.
Qed.

Lemma window_shifts : forall st, dec_ok st ->
  Z.shiftr (val st) (OD_EC_WINDOW_SIZE - 15) = Z.shiftr (top16 st) 1 /\
  Z.shiftr (val st) (OD_EC_WINDOW_SIZE - 16) = top16 st.
Proof.
  intros st Hok. destruct (top16_eq st Hok) as [E _]. rewrite E.
  unfold OD_EC_WINDOW_SIZE. change (32 - 15) with 17. change (32 - 16) with 16.
  rewrite !shiftr_pow2 by lia. split; [| reflexivity].
  rewrite Z.div_div by lia. reflexivity.
Qed.

(** The frequency of the walk is at least 1, which is what stops the walk at
    the closing 0 of the table. *)
Lemma icdf_ft_q_spec : forall st ft, dec_ok st -> 1 <= ft <= 32767 ->
  let fts := fst (ec_scale ft (rng st)) in
  let s := snd (ec_scale ft (rng st)) in
  let M := Z.max (top16 st / 2) (top16 st - (rng st - fts)) in
  icdf_ft_q st ft = ft - M / 2 ^ s /\ 1 <= icdf_ft_q st ft <= ft.
Proof.
  intros st ft Hok Hft. pose proof Hok as [Hr _ _ _ _ _].
  destruct (ec_scale_spec ft (rng st) Hft Hr) as [Hs [Ef Hb]].
  destruct (top16_eq st Hok) as [_ HD].
  destruct (window_shifts st Hok) as [E17 E16].
  cbv zeta. unfold icdf_ft_q. rewrite E17, E16.
  rewrite (maxi_value _ _ _ HD Hr Hb).
  pose proof (value_below_total _ _ _ HD Hb) as HM.
  set (fts := fst (ec_scale ft (rng st))) in *.
  set (s := snd (ec_scale ft (rng st))) in *.
  set (M := Z.max (top16 st / 2) (top16 st - (rng st - fts))) in *.
  pose proof (pow2_pos s ltac:(lia)) as HP.
  rewrite shiftr_pow2 by lia.
  assert (Hv : 0 <= M / 2 ^ s < ft).
  { split; [apply Z.div_pos; lia|].
    apply Z.div_lt_upper_bound; [lia|]. rewrite Z.mul_comm. lia. }
  rewrite (u32_small (M / 2 ^ s)) by lia.
  rewrite u32_small by lia. lia.
Qed.

Lemma icdf_q_spec : forall st ftb, dec_ok st -> 0 <= ftb <= 15 ->
  let s := 15 - ftb in
  let M := Z.max (top16 st / 2) (top16 st - (rng st - 32768)) in
  icdf_q st ftb = 2 ^ ftb - M / 2 ^ s /\ 1 <= icdf_q st ftb <= 2 ^ ftb.
Proof.
  intros st ftb Hok Hft. pose proof Hok as [Hr _ _ _ _ _].
  destruct (top16_eq st Hok) as [_ HD].
  destruct (window_shifts st Hok) as [E17 E16].
  cbv zeta. unfold icdf_q. rewrite E17, E16.
  rewrite (maxi_value _ _ 32768 HD Hr ltac:(lia)).
  pose proof (value_below_total _ _ 32768 HD ltac:(lia)) as HM.
  set (M := Z.max (top16 st / 2) (top16 st - (rng st - 32768))) in *.
  rewrite s32_small by lia.
  pose proof (pow2_pos (15 - ftb) ltac:(lia)) as HP.
  pose proof (pow2_pos ftb ltac:(lia)) as HQ.
  assert (E15 : 2 ^ ftb * 2 ^ (15 - ftb) = 32768).
  { rewrite <- Z.pow_add_r by lia. replace (ftb + (15 - ftb)) with 15 by lia.
    reflexivity. }
  rewrite shiftr_pow2 by lia. rewrite shiftl_pow2 by lia. rewrite Z.mul_1_l.
  assert (Hv : 0 <= M / 2 ^ (15 - ftb) < 2 ^ ftb).
  { split; [apply Z.div_pos; lia|].
    apply Z.div_lt_upper_bound; [lia|]. rewrite Z.mul_comm. lia. }
  assert (Hq : 2 ^ ftb <= 32768) by nia.
  rewrite (u32_small (2 ^ ftb)) by lia.
  rewrite (u32_small (M / 2 ^ (15 - ftb))) by lia.
  rewrite u32_small by lia. lia.
Qed.

Lemma ec_narrow_ok : forall st fts fls fhs ret,
  dec_ok st ->
  fts <= rng st < 2 * fts -> 0 <= fls -> fhs <= fts ->
  fls <= Z.max (top16 st / 2) (top16 st - (rng st - fts)) < fhs ->
  dec_ok (fst (ec_narrow st (u32 (rng st - fts)) fls fhs ret)).
Proof. intros. unfold ec_narrow. apply narrow_ok; assumption. Qed.

Lemma ec_narrow_ret : forall st d fl fh ret,
  snd (ec_narrow st d fl fh ret) = ret.
Proof. intros. unfold ec_narrow. apply normalize_ret. Qed.

Lemma icdf_at_nat : forall tbl i, icdf_at tbl (0 + Z.of_nat i) = nth i tbl 0.
Proof. intros. unfold icdf_at. rewrite Z.add_0_l, Nat2Z.id. reflexivity. Qed.

Lemma icdf_ft_body_preserves : forall st tbl ft,
  dec_ok st -> 1 <= ft <= 32767 -> icdf_wf tbl ft ->
  exists st' ret, icdf_ft_body st tbl ft = Some (st', ret) /\ dec_ok st'.
Proof.
  intros st tbl ft Hok Hft Hwf. pose proof Hok as [Hr _ _ _ _ _].
  destruct (ec_scale_spec ft (rng st) Hft Hr) as [Hs [Ef Hb]].
  destruct (icdf_ft_q_spec st ft Hok Hft) as [Eq Hq].
  destruct (top16_eq st Hok) as [_ HD].
  pose proof (value_below_total _ _ _ HD Hb) as HM.
  rewrite icdf_ft_body_eq.
  set (fts := fst (ec_scale ft (rng st))) in *.
  set (s := snd (ec_scale ft (rng st))) in *.
  set (M := Z.max (top16 st / 2) (top16 st - (rng st - fts))) in *.
  set (q := icdf_ft_q st ft) in *.
  pose proof (pow2_pos s ltac:(lia)) as HP.
  destruct (icdf_walk_wf tbl ft q 0 ft ft Hwf ltac:(lia) ltac:(lia)
              ltac:(lia)) as [i [fl' [E [Hfl Hx]]]].
  rewrite E, icdf_at_nat.
  set (x := nth i tbl 0) in *.
  assert (Hbr : (ft - fl') * 2 ^ s <= M < (ft - x) * 2 ^ s).
  { apply div_bracket; lia. }
  assert (Hhi : (ft - x) * 2 ^ s <= fts) by nia.
  rewrite (u32_small (ft - fl')) by lia.
  rewrite (u32_small (ft - x)) by lia.
  rewrite !shiftl_pow2 by lia.
  rewrite (u32_small ((ft - fl') * 2 ^ s)) by nia.
  rewrite (u32_small ((ft - x) * 2 ^ s)) by nia.
  eexists. eexists. split; [apply f_equal; apply surjective_pairing|].
  apply ec_narrow_ok; try assumption; nia.
Qed.

Lemma icdf_body_preserves : forall st tbl ftb,
  dec_ok st -> 0 <= ftb <= 15 -> icdf_wf tbl (2 ^ ftb) ->
  exists st' ret, icdf_body st tbl ftb = Some (st', ret) /\ dec_ok st'.
Proof.
  intros st tbl ftb Hok Hft Hwf. pose proof Hok as [Hr _ _ _ _ _].
  destruct (icdf_q_spec st ftb Hok Hft) as [Eq Hq].
  destruct (top16_eq st Hok) as [_ HD].
  pose proof (value_below_total _ _ 32768 HD ltac:(lia)) as HM.
  rewrite icdf_body_eq.
  set (M := Z.max (top16 st / 2) (top16 st - (rng st - 32768))) in *.
  set (q := icdf_q st ftb) in *.
  pose proof (pow2_pos (15 - ftb) ltac:(lia)) as HP.
  pose proof (pow2_pos ftb ltac:(lia)) as HF.
  assert (E15 : 2 ^ ftb * 2 ^ (15 - ftb) = 32768).
  { rewrite <- Z.pow_add_r by lia. replace (ftb + (15 - ftb)) with 15 by lia.
    reflexivity. }
  assert (HF15 : 2 ^ ftb <= 32768) by nia.
  rewrite (shiftl_pow2 1) by lia. rewrite Z.mul_1_l.
  rewrite (u32_small (2 ^ ftb)) by lia.
  rewrite s32_small by lia.
  destruct (icdf_walk_wf tbl (2 ^ ftb) q 0 (2 ^ ftb) (2 ^ ftb) Hwf
              ltac:(lia) ltac:(lia) ltac:(lia)) as [i [fl' [E [Hfl Hx]]]].
  rewrite E, icdf_at_nat. rewrite !shiftl_pow2 by lia.
  set (x := nth i tbl 0) in *.
  set (F := 2 ^ ftb) in *. set (P := 2 ^ (15 - ftb)) in *.
  assert (Hbr : (F - fl') * P <= M < (F - x) * P).
  { apply div_bracket; lia. }
  assert (Hfp : 0 <= fl' * P <= 32768) by nia.
  assert (Hxp : 0 <= x * P <= 32768) by nia.
  rewrite (u32_small (fl' * P)) by lia.
  rewrite (u32_small (32768 - fl' * P)) by lia.
  rewrite (u32_small (32768 - x * P)) by lia.
  eexists. eexists. split; [apply f_equal; apply surjective_pairing|].
  apply ec_narrow_ok; try assumption; nia.
Qed.

(** ** od_ec_dec_bits *)

Ltac bits_cases :=
  unfold od_ec_dec_bits;
  match goal with
  | |- context [if ?c <? ?n then _ else _] => destruct (c <? n)
  end;
  [ match goal with
    | |- context [od_ec_dec_bits_refill ?f ?b ?st ?eo ?w ?a] =>
        destruct (od_ec_dec_bits_refill f b st eo w a) as [[? ?] ?]
    end | ].

Lemma bits_range_coder : forall st n,
  let st' := fst (od_ec_dec_bits st n) in
  rng st' = rng st /\ val st' = val st /\ cnt st' = cnt st /\
  offs st' = offs st /\ storage st' = storage st /\ ext st' = ext st /\
  error st' = error st /\ buf st' = buf st.
Proof. intros st n. cbv zeta. bits_cases; repeat split. Qed.


Lemma same_coder_ok : forall st st',
  rng st' = rng st -> val st' = val st -> cnt st' = cnt st ->
  offs st' = offs st -> storage st' = storage st ->
  dec_ok st -> dec_ok st'.
Proof.
  intros st st' E1 E2 E3 E4 E5 [? ? ? ? ? ?].
  constructor; rewrite ?E1, ?E2, ?E3, ?E4, ?E5; assumption.
Qed.

Lemma bits_preserves : forall st n,
  dec_ok st -> dec_ok (fst (od_ec_dec_bits st n)).
Proof.
  intros st n Hok.
  destruct (bits_range_coder st n) as [E1 [E2 [E3 [E4 [E5 _]]]]].
  apply (same_coder_ok st); assumption.
Qed.

(** Enough fuel for the [do ... while] loop: more rounds than [bits_fuel]
    gives change nothing. *)
Lemma bits_fuel_enough : forall a,
  OD_EC_WINDOW_SIZE - 8 - a < 8 * Z.of_nat (bits_fuel a) /\
  (1 <= bits_fuel a)%nat.
Proof.
  intro a. unfold bits_fuel, OD_EC_WINDOW_SIZE. split; [| lia].
  destruct (Z_lt_le_dec (32 - 8 - a) 0) as [Hn | Hp]; [lia|].
  rewrite Nat2Z.inj_succ, Z2Nat.id by zdiv. zdiv.
Qed.

Lemma bits_refill_more_fuel : forall fuel k b stor eo w a,
  OD_EC_WINDOW_SIZE - 8 - a < 8 * Z.of_nat fuel -> (1 <= fuel)%nat ->
  od_ec_dec_bits_refill (fuel + k) b stor eo w a =
  od_ec_dec_bits_refill fuel b stor eo w a.
Proof.
  induction fuel as [| fuel IH]; intros k b stor eo w a Hf H1; [lia|].
  cbn [Nat.add od_ec_dec_bits_refill].
  destruct (stor <=? eo); [reflexivity|].
  destruct (a + 8 <=? OD_EC_WINDOW_SIZE - 8) eqn:C; [| reflexivity].
  apply Z.leb_le in C. apply IH; lia.
Qed.

(** ** od_ec_dec_uint *)

Lemma set_error_ok : forall st e, dec_ok st -> dec_ok (set_error st e).
Proof. intros st e [? ? ? ? ? ?]. constructor; assumption. Qed.

(** [fs & ~((1<<k)-1)] clears the low [k] bits. *)
Lemma land_mask : forall v k, 0 <= v < 2 ^ 32 -> 0 <= k ->
  Z.land v (u32 (Z.lnot (Z.shiftl 1 k - 1))) = v / 2 ^ k * 2 ^ k.
Proof.
  intros v k Hv Hk.
  rewrite shiftl_pow2 by lia. rewrite Z.mul_1_l.
  replace (2 ^ k - 1) with (Z.ones k) by (rewrite Z.ones_equiv; lia).
  unfold u32. rewrite <- Z.land_ones by lia.
  rewrite Z.land_assoc, (Z.land_comm v), <- Z.land_assoc.
  rewrite (Z.land_ones v) by lia. rewrite (Z.mod_small v) by lia.
  rewrite Z.land_comm, <- Z.ldiff_land, Z.ldiff_ones_r by lia.
  rewrite shiftr_pow2, shiftl_pow2 by lia. reflexivity.
Qed.

(** The split of [od_ec_dec_uint] for a total above [2^ub]: the number of raw
    bits is at least 1, and the total of the range-coded part is a multiple
    of [2^(15-ub)] in (16384, 32768]. *)
Lemma uint_split : forall ub ft1,
  1 <= ub <= 15 -> 2 ^ ub <= ft1 < 2 ^ 32 ->
  let ftb := OD_ILOG_NZ ft1 - ub in
  let hi := Z.shiftr ft1 ftb in
  1 <= ftb <= 32 - ub /\ 2 ^ (ub - 1) <= hi < 2 ^ ub /\
  16384 < (hi + 1) * 2 ^ (15 - ub) <= 32768.
Proof.
  intros ub ft1 Hub Hft. cbv zeta.
  pose proof (pow2_pos ub ltac:(lia)) as Hpu.
  destruct (ilog_spec ft1 ltac:(lia)) as [H1 [H2 H3]].
  pose proof (ilog_le ft1 32 ltac:(lia) ltac:(lia)) as H4.
  set (k := OD_ILOG_NZ ft1) in *.
  assert (Hk : ub < k) by (apply (Z.pow_lt_mono_r_iff 2); lia).
  pose proof (pow2_pos (k - ub) ltac:(lia)) as Hpf.
  assert (Elo : 2 ^ (k - 1) = 2 ^ (ub - 1) * 2 ^ (k - ub)).
  { rewrite <- Z.pow_add_r by lia. f_equal. lia. }
  assert (Ehi : 2 ^ k = 2 ^ ub * 2 ^ (k - ub)).
  { rewrite <- Z.pow_add_r by lia. f_equal. lia. }
  rewrite shiftr_pow2 by lia.
  assert (Hhi : 2 ^ (ub - 1) <= ft1 / 2 ^ (k - ub) < 2 ^ ub).
  { split.
    - apply Z.div_le_lower_bound; [lia|]. rewrite Z.mul_comm. lia.
    - apply Z.div_lt_upper_bound; [lia|]. rewrite Z.mul_comm. lia. }
  split; [lia|]. split; [exact Hhi|].
  assert (E14 : 2 ^ (ub - 1) * 2 ^ (15 - ub) = 16384).
  { rewrite <- Z.pow_add_r by lia. replace (ub - 1 + (15 - ub)) with 14 by lia.
    reflexivity. }
  assert (E15 : 2 ^ ub * 2 ^ (15 - ub) = 32768).
  { rewrite <- Z.pow_add_r by lia. replace (ub + (15 - ub)) with 15 by lia.
    reflexivity. }
  pose proof (pow2_pos (15 - ub) ltac:(lia)). nia.
Qed.

Lemma uint_preserves : forall ub st ft,
  dec_ok st -> 1 <= ub <= 14 -> 1 <= ft < 2 ^ 32 ->
  dec_ok (fst (od_ec_dec_uint ub st ft)).
Proof.
  intros ub st ft Hok Hub Hft. unfold od_ec_dec_uint.
  rewrite (shiftl_pow2 1 ub) by lia. rewrite Z.mul_1_l.
  assert (Hpu : 2 <= 2 ^ ub <= 2 ^ 14).
  { split; [change 2 with (2 ^ 1) at 1|]; apply Z.pow_le_mono_r; lia. }
  change (2 ^ 14) with 16384 in Hpu.
  rewrite (u32_small (2 ^ ub)) by lia.
  destruct (2 ^ ub <? ft) eqn:C.
  - apply Z.ltb_lt in C. rewrite (u32_small (ft - 1)) by lia.
    destruct (uint_split ub (ft - 1) ltac:(lia) ltac:(lia))
      as [Hftb [Hhi Hftn]].
    set (ftb := OD_ILOG_NZ (ft - 1) - ub) in *.
    set (hi := Z.shiftr (ft - 1) ftb) in *.
    pose proof (pow2_pos (15 - ub) ltac:(lia)) as HQ.
    rewrite (u32_small (hi + 1)) by lia.
    rewrite (shiftl_pow2 (hi + 1)) by lia.
    rewrite (u32_small ((hi + 1) * 2 ^ (15 - ub))) by lia.
    set (ftn := (hi + 1) * 2 ^ (15 - ub)) in *.
    destruct (decode_normalized_post st ftn Hok ltac:(lia))
      as [Hok1 [Hv Hupd]].
    destruct (od_ec_decode_normalized st ftn) as [st1 v].
    cbn [fst snd] in Hok1, Hv, Hupd.
    rewrite land_mask by lia.
    rewrite (shiftl_pow2 1 (15 - ub)) by lia. rewrite Z.mul_1_l.
    set (Q := 2 ^ (15 - ub)) in *.
    assert (Hfs : 0 <= v / Q * Q <= v /\ v < v / Q * Q + Q <= ftn).
    { assert (v / Q < hi + 1).
      { apply Z.div_lt_upper_bound; [lia|]. rewrite Z.mul_comm. exact (proj2 Hv). }
      pose proof (Z.div_mod v Q ltac:(lia)) as Edm.
      pose proof (Z.mod_pos_bound v Q HQ) as Hm.
      assert (Hle : (v / Q + 1) * Q <= (hi + 1) * Q)
        by (apply Z.mul_le_mono_nonneg_r; lia).
      assert (Hnn : 0 <= v / Q * Q).
      { apply Z.mul_nonneg_nonneg; [apply Z.div_pos|]; lia. }
      unfold ftn. lia. }
    rewrite (u32_small (v / Q * Q + Q)) by lia.
    assert (Hu : update_ok st1 (v / Q * Q) (v / Q * Q + Q) ftn)
      by (apply Hupd; lia).
    pose proof (update_preserves st1 _ _ ftn Hok1 Hu) as Hok2.
    pose proof (bits_preserves _ ftb Hok2) as Hok3.
    destruct (od_ec_dec_bits _ ftb) as [st3 lo]. cbn [fst] in Hok3.
    destruct (_ <=? ft - 1); cbn [fst];
      [exact Hok3 | apply set_error_ok; exact Hok3].
  - apply Z.ltb_ge in C.
    destruct (decode_any_post st ft Hok ltac:(lia)) as [Hok1 [Hv Hupd]].
    destruct (od_ec_decode st ft) as [st1 fs].
    cbn [fst snd] in *. rewrite (u32_small (fs + 1)) by lia.
    apply update_preserves; [exact Hok1|]. apply Hupd; lia.
Qed.

(** ** Every legal call keeps the invariant *)

Lemma some_pair_fst : forall (x : od_ec_dec * Z) st' v,
  Some x = Some (st', v) -> st' = fst x.
Proof. intros x st' v E. injection E as E. rewrite E. reflexivity. Qed.

Lemma step_preserves : forall ub st c st' v,
  dec_ok st -> legal ub st c -> run ub c st = Some (st', v) -> dec_ok st'.
Proof.
  intros ub st c st' v Hok Hl E.
  destruct c; cbn [run legal] in *;
    try (rewrite (some_pair_fst _ _ _ E)).
  - apply set_ext_ok. exact Hok.
  - rewrite od_ec_decode_scale. apply set_ext_ok. exact Hok.
  - apply set_ext_ok. exact Hok.
  - apply set_ext_ok. exact Hok.
  - apply update_preserves; assumption.
  - apply bit_logp_preserves; assumption.
  - destruct Hl as [Hft Hwf].
    destruct (icdf_ft_body_preserves st _ ft Hok Hft Hwf) as [s1 [r1 [E1 H]]].
    unfold od_ec_dec_icdf_ft in E. rewrite E1 in E. inversion E; subst.
    exact H.
  - destruct Hl as [Hft Hwf].
    destruct (icdf_ft_body_preserves st _ ft Hok Hft Hwf) as [s1 [r1 [E1 H]]].
    unfold od_ec_dec_icdf16_ft in E. rewrite E1 in E. inversion E; subst.
    exact H.
  - destruct Hl as [Hft Hwf].
    destruct (icdf_body_preserves st _ ftb Hok Hft Hwf) as [s1 [r1 [E1 H]]].
    unfold od_ec_dec_icdf in E. rewrite E1 in E. inversion E; subst.
    exact H.
  - destruct Hl as [Hft Hwf].
    destruct (icdf_body_preserves st _ ftb Hok Hft Hwf) as [s1 [r1 [E1 H]]].
    unfold od_ec_dec_icdf16 in E. rewrite E1 in E. inversion E; subst.
    exact H.
  - destruct Hl as [Hub Hft]. apply uint_preserves; assumption.
  - apply bits_preserves. exact Hok.
Qed.

(** A legal call returns: the table walks stay inside their tables. *)
Lemma step_returns : forall ub st c,
  dec_ok st -> legal ub st c -> exists st' v, run ub c st = Some (st', v).
Proof.
  intros ub st c Hok Hl.
  destruct c; cbn [run legal] in *;
    try (eexists; eexists; apply f_equal; apply surjective_pairing);
    try (eexists; eexists; reflexivity).
  - destruct Hl as [Hft Hwf].
    destruct (icdf_ft_body_preserves st _ ft Hok Hft Hwf) as [s1 [r1 [E1 _]]].
    exists s1, r1. exact E1.
  - destruct Hl as [Hft Hwf].
    destruct (icdf_ft_body_preserves st _ ft Hok Hft Hwf) as [s1 [r1 [E1 _]]].
    exists s1, r1. exact E1.
  - destruct Hl as [Hft Hwf].
    destruct (icdf_body_preserves st _ ftb Hok Hft Hwf) as [s1 [r1 [E1 _]]].
    exists s1, r1. exact E1.
  - destruct Hl as [Hft Hwf].
    destruct (icdf_body_preserves st _ ftb Hok Hft Hwf) as [s1 [r1 [E1 _]]].
    exists s1, r1. exact E1.
Qed.

Lemma reachable_ok : forall ub st, reachable ub st -> dec_ok st.
Proof.
  intros ub st H. induction H as [b n Hn | st c st' v _ IH Hl E].
  - apply init_ok. exact Hn.
  - apply (step_preserves ub st c st' v); assumption.
Qed.

(** ** The frame of the fault flag *)

Lemma decode_normalized_error : forall st ft,
  error (fst (od_ec_decode_normalized st ft)) = error st.
Proof. reflexivity. Qed.

Lemma decode_error : forall st ft,
  error (fst (od_ec_decode st ft)) = error st.
Proof. intros. rewrite od_ec_decode_scale. reflexivity. Qed.

Lemma update_error : forall st fl fh ft,
  error (od_ec_dec_update st fl fh ft) = error st.
Proof. intros. unfold od_ec_dec_update. apply normalize_error. Qed.

Lemma bit_logp_error : forall st logp,
  error (fst (od_ec_dec_bit_logp st logp)) = error st.
Proof. intros. unfold od_ec_dec_bit_logp. apply normalize_error. Qed.

Lemma bits_error : forall st n,
  error (fst (od_ec_dec_bits st n)) = error st.
Proof. intros st n. bits_cases; reflexivity. Qed.

Lemma icdf_ft_body_error : forall st tbl ft st' v,
  icdf_ft_body st tbl ft = Some (st', v) -> error st' = error st.
Proof.
  intros st tbl ft st' v E. rewrite icdf_ft_body_eq in E.
  destruct (icdf_walk _ _ _ _) as [[ret fl] |]; [| discriminate].
  rewrite (some_pair_fst _ _ _ E). unfold ec_narrow. apply normalize_error.
Qed.

Lemma icdf_body_error : forall st tbl ftb st' v,
  icdf_body st tbl ftb = Some (st', v) -> error st' = error st.
Proof.
  intros st tbl ftb st' v E. rewrite icdf_body_eq in E.
  destruct (icdf_walk _ _ _ _) as [[ret fl] |]; [| discriminate].
  rewrite (some_pair_fst _ _ _ E). unfold ec_narrow. apply normalize_error.
Qed.

(** The two branches of [od_ec_dec_uint]. *)
Lemma uint_large_eq : forall ub st ft,
  u32 (Z.shiftl 1 ub) < ft ->
  od_ec_dec_uint ub st ft =
  if snd (uint_combined ub st ft) <=? u32 (ft - 1)
  then uint_combined ub st ft
  else (set_error (fst (uint_combined ub st ft)) 1, u32 (ft - 1)).
Proof.
  intros ub st ft H. unfold od_ec_dec_uint, uint_combined.
  apply Z.ltb_lt in H. rewrite H.
  destruct (od_ec_decode_normalized st _) as [st1 v]. cbn [fst snd].
  destruct (od_ec_dec_bits _ _) as [st3 lo]. cbn [fst snd].
  destruct (_ <=? _); reflexivity.
Qed.

Lemma uint_small_eq : forall ub st ft,
  ft <= u32 (Z.shiftl 1 ub) ->
  od_ec_dec_uint ub st ft =
  (od_ec_dec_update (fst (od_ec_decode st ft)) (snd (od_ec_decode st ft))
     (u32 (snd (od_ec_decode st ft) + 1)) ft,
   snd (od_ec_decode st ft)).
Proof.
  intros ub st ft H. unfold od_ec_dec_uint.
  apply Z.ltb_ge in H. rewrite H.
  destruct (od_ec_decode st ft) as [st1 fs]. reflexivity.
Qed.

Lemma uint_combined_error : forall ub st ft,
  error (fst (uint_combined ub st ft)) = error st.
Proof.
  intros. unfold uint_combined. cbn [fst].
  rewrite bits_error, update_error, decode_normalized_error. reflexivity.
Qed.

Lemma uint_error : forall ub st ft,
  error (fst (od_ec_dec_uint ub st ft)) = error st \/
  error (fst (od_ec_dec_uint ub st ft)) = 1.
Proof.
  intros ub st ft.
  destruct (Z_lt_le_dec (u32 (Z.shiftl 1 ub)) ft) as [H | H].
  - rewrite (uint_large_eq ub st ft H).
    destruct (_ <=? _); [left; apply uint_combined_error | right; reflexivity].
  - rewrite (uint_small_eq ub st ft H). cbn [fst]. left.
    rewrite update_error. apply decode_error.
Qed.

Lemma run_error : forall ub c st st' v,
  run ub c st = Some (st', v) -> error st' = error st \/ error st' = 1.
Proof.
  intros ub c st st' v E.
  destruct c; cbn [run] in E;
    try (rewrite (some_pair_fst _ _ _ E)).
  - left. reflexivity.
  - left. apply decode_error.
  - left. reflexivity.
  - left. reflexivity.
  - left. apply update_error.
  - left. apply bit_logp_error.
  - left. apply (icdf_ft_body_error _ _ _ _ _ E).
  - left. apply (icdf_ft_body_error _ _ _ _ _ E).
  - left. apply (icdf_body_error _ _ _ _ _ E).
  - left. apply (icdf_body_error _ _ _ _ _ E).
  - apply uint_error.
  - left. apply bits_error.
Qed.

(** ** Where the table walk stops *)

Lemma walk_first_below : forall tbl q i,
  (i < length tbl)%nat -> nth i tbl 0 < q ->
  (forall j, (j < i)%nat -> q <= nth j tbl 0) ->
  first_below tbl q (Z.of_nat i).
Proof.
  intros tbl q i Hi Hn Hj. unfold first_below, icdf_at.
  rewrite Nat2Z.id. split; [lia|]. split; [exact Hn|].
  intros j Hlt. apply Hj. lia.
Qed.

Lemma icdf_ft_body_index : forall st tbl ft,
  dec_ok st -> 1 <= ft <= 32767 -> last tbl 1 = 0 ->
  exists st' s, icdf_ft_body st tbl ft = Some (st', s) /\
                first_below tbl (icdf_ft_q st ft) s.
Proof.
  intros st tbl ft Hok Hft Hlast.
  destruct (icdf_ft_q_spec st ft Hok Hft) as [_ Hq].
  destruct (icdf_walk_stops tbl (icdf_ft_q st ft) 0 ft ltac:(lia) Hlast)
    as [i [fl' [E [Hi [Hn Hj]]]]].
  rewrite icdf_ft_body_eq, E. rewrite Z.add_0_l.
  match goal with
  | |- exists st' s, Some ?X = Some (st', s) /\ _ =>
      exists (fst X), (snd X); split;
        [rewrite <- surjective_pairing; reflexivity | rewrite ec_narrow_ret]
  end.
  apply walk_first_below; assumption.
Qed.

Lemma icdf_body_index : forall st tbl ftb,
  dec_ok st -> 0 <= ftb <= 15 -> last tbl 1 = 0 ->
  exists st' s, icdf_body st tbl ftb = Some (st', s) /\
                first_below tbl (icdf_q st ftb) s.
Proof.
  intros st tbl ftb Hok Hft Hlast.
  destruct (icdf_q_spec st ftb Hok Hft) as [_ Hq].
  destruct (icdf_walk_stops tbl (icdf_q st ftb) 0 (u32 (Z.shiftl 1 ftb))
              ltac:(lia) Hlast) as [i [fl' [E [Hi [Hn Hj]]]]].
  rewrite icdf_body_eq, E. rewrite Z.add_0_l.
  match goal with
  | |- exists st' s, Some ?X = Some (st', s) /\ _ =>
      exists (fst X), (snd X); split;
        [rewrite <- surjective_pairing; reflexivity | rewrite ec_narrow_ret]
  end.
  apply walk_first_below; assumption.
Qed.

(** ** The decoder on a buffer *)

(** Three bytes fill the window below its top bit; 9 bits lie under the 16
    the decoder compares with. *)
Example init_sample :
  let st := od_ec_dec_init sample_buf 5 in
  val st = 0x529E7F80 /\ cnt st = 9 /\ offs st = 3 /\ nbits_total st = 1.
Proof. repeat split. Qed.

(** Bits of probability 1/2 are the bits of the buffer, most significant
    first, across the refills of the window and then zeros past its end:
    a5 3c ff 01 80, then 00. *)
Example bit_logp_sample :
  snd (bit_logp_run 48 1 (od_ec_dec_init sample_buf 5)) =
  [1; 0; 1; 0; 0; 1; 0; 1;  0; 0; 1; 1; 1; 1; 0; 0;
   1; 1; 1; 1; 1; 1; 1; 1;  0; 0; 0; 0; 0; 0; 0; 1;
   1; 0; 0; 0; 0; 0; 0; 0;  0; 0; 0; 0; 0; 0; 0; 0].
Proof. vm_compute. reflexivity. Qed.

(** Raw bits come from the end of the buffer, least significant first. *)
Example bits_sample :
  snd (od_ec_dec_bits (od_ec_dec_init sample_buf 5) 8) = 0x80 /\
  snd (od_ec_dec_bits (fst (od_ec_dec_bits (od_ec_dec_init sample_buf 5) 8))
         12) = 0xf01.
Proof. vm_compute. split; reflexivity. Qed.

Example icdf_sample :
  option_map snd (od_ec_dec_icdf (od_ec_dec_init sample_buf 5) sample_icdf 3)
  = Some 5 /\
  option_map snd (od_ec_dec_icdf_ft (od_ec_dec_init sample_buf 5) sample_icdf 8)
  = Some 5.
Proof. vm_compute. split; reflexivity. Qed.

(** An empty table is left at once. *)
Example icdf_empty :
  od_ec_dec_icdf (od_ec_dec_init sample_buf 5) [] 3 = None.
Proof. reflexivity. Qed.

Example uint_sample :
  snd (od_ec_dec_uint 4 (od_ec_dec_init sample_buf 5) 100) = 56 /\
  snd (od_ec_dec_uint 4 (od_ec_dec_init sample_buf 5) 16) = 10.
Proof. vm_compute. split; reflexivity. Qed.

(** * The claims *)

(** C1. [od_ec_dec_init] sets the range to 0x8000; [od_ec_dec_normalize]
    leaves a range in [0x8000, 0x10000) whenever it is given a range of 1 to
    16 bits; and after every sequence of calls made as the source documents
    them (arguments in their documented domains, [od_ec_dec_update] after a
    decode call and around the value it returned), the range is in
    [0x8000, 0x10000). *)
Theorem range_invariant :
  (forall b n, rng (od_ec_dec_init b n) = 0x8000) /\
  (forall st dif r ret, 1 <= r < 65536 ->
     0x8000 <= rng (fst (od_ec_dec_normalize st dif r ret)) < 0x10000) /\
  (forall ub st, reachable ub st -> 0x8000 <= rng st < 0x10000).
Proof.
  split; [exact init_rng|]. split; [exact normalize_rng_bounds|].
  intros ub st H. exact (ok_rng st (reachable_ok ub st H)).
Qed.

Lemma range_invariant_witness :
  0x8000 <= rng (fst (od_ec_dec_bit_logp (od_ec_dec_init sample_buf 5) 1))
         < 0x10000.
Proof.
  apply (proj2 (proj2 range_invariant) 4).
  apply (reach_call 4 (od_ec_dec_init sample_buf 5) (BitLogp 1) _ 1).
  - apply reach_init. lia.
  - cbn. lia.
  - reflexivity.
Defined.

(** C2. On a decoder that satisfies its invariants, with a table whose
    entries do not increase and end with 0, [od_ec_dec_icdf_ft] (for a total
    from 1 to 32767) and [od_ec_dec_icdf] (for up to 15 bits) return an index
    inside the table: the first index whose entry is below the frequency [q]
    the walk compares with, so the walk reads no entry past the last one. *)
Theorem icdf_index_in_table : forall st t,
  dec_ok st -> icdf_table (tbl8 t) ->
  (forall ft, 1 <= ft <= 32767 ->
     exists st' s, od_ec_dec_icdf_ft st t ft = Some (st', s) /\
                   0 <= s < Z.of_nat (length t) /\
                   first_below (tbl8 t) (icdf_ft_q st ft) s) /\
  (forall ftb, 0 <= ftb <= 15 ->
     exists st' s, od_ec_dec_icdf st t ftb = Some (st', s) /\
                   0 <= s < Z.of_nat (length t) /\
                   first_below (tbl8 t) (icdf_q st ftb) s).
Proof.
  intros st t Hok [_ [_ Hlast]]. split.
  - intros ft Hft.
    destruct (icdf_ft_body_index st (tbl8 t) ft Hok Hft Hlast)
      as [st' [s [E Hs]]].
    exists st', s. split; [exact E|]. split; [| exact Hs].
    destruct Hs as [Hs _]. unfold tbl8 in Hs. rewrite length_map in Hs.
    exact Hs.
  - intros ftb Hft.
    destruct (icdf_body_index st (tbl8 t) ftb Hok Hft Hlast)
      as [st' [s [E Hs]]].
    exists st', s. split; [exact E|]. split; [| exact Hs].
    destruct Hs as [Hs _]. unfold tbl8 in Hs. rewrite length_map in Hs.
    exact Hs.
Qed.

Lemma icdf_index_in_table_witness :
  (forall ft, 1 <= ft <= 32767 ->
     exists st' s,
       od_ec_dec_icdf_ft (od_ec_dec_init sample_buf 5) sample_icdf ft =
       Some (st', s) /\
       0 <= s < Z.of_nat (length sample_icdf) /\
       first_below (tbl8 sample_icdf)
         (icdf_ft_q (od_ec_dec_init sample_buf 5) ft) s) /\
  (forall ftb, 0 <= ftb <= 15 ->
     exists st' s,
       od_ec_dec_icdf (od_ec_dec_init sample_buf 5) sample_icdf ftb =
       Some (st', s) /\
       0 <= s < Z.of_nat (length sample_icdf) /\
       first_below (tbl8 sample_icdf)
         (icdf_q (od_ec_dec_init sample_buf 5) ftb) s).
Proof.
  apply (icdf_index_in_table (od_ec_dec_init sample_buf 5) sample_icdf).
  - apply init_ok. lia.
  - split; [discriminate|]. split; [cbn; lia | reflexivity].
Defined.

(** C3. On a decoder that satisfies its invariants, and for a total [ft]
    from 16384 to 32767, the value [od_ec_decode_normalized] returns is in
    [0, ft). *)
Theorem decode_normalized_range : forall st ft,
  dec_ok st -> 16384 <= ft <= 32767 ->
  0 <= snd (od_ec_decode_normalized st ft) < ft.
Proof.
  intros st ft Hok Hft.
  destruct (decode_normalized_post st ft Hok ltac:(lia)) as [_ [Hv _]].
  exact Hv.
Qed.

Lemma decode_normalized_range_witness :
  0 <= snd (od_ec_decode_normalized (od_ec_dec_init sample_buf 5) 20000)
    < 20000.
Proof.
  apply (decode_normalized_range (od_ec_dec_init sample_buf 5) 20000).
  - apply init_ok. lia.
  - lia.
Defined.

(** C4. In [od_ec_dec_uint] with a total above [2^OD_EC_UINT_BITS]: when the
    value combined from the range-coded part and the raw bits is above
    [ft-1], the error field is set to 1 and [ft-1] is returned; when it is at
    most [ft-1], it is returned and the error field is the one before the
    call. *)
Theorem uint_fault : forall ub st ft,
  u32 (Z.shiftl 1 ub) < ft -> ft < 2 ^ 32 ->
  (ft - 1 < snd (uint_combined ub st ft) ->
     error (fst (od_ec_dec_uint ub st ft)) = 1 /\
     snd (od_ec_dec_uint ub st ft) = ft - 1) /\
  (snd (uint_combined ub st ft) <= ft - 1 ->
     snd (od_ec_dec_uint ub st ft) = snd (uint_combined ub st ft) /\
     error (fst (od_ec_dec_uint ub st ft)) = error st).
Proof.
  intros ub st ft Hlarge Hft.
  pose proof (u32_range (Z.shiftl 1 ub)) as Hu.
  rewrite (uint_large_eq ub st ft Hlarge).
  rewrite (u32_small (ft - 1)) by lia.
  split; intro Ht.
  - apply Z.leb_gt in Ht. rewrite Ht. split; reflexivity.
  - apply Z.leb_le in Ht. rewrite Ht.
    split; [reflexivity | apply uint_combined_error].
Qed.

Lemma uint_fault_witness :
  (100 - 1 < snd (uint_combined 4 (od_ec_dec_init sample_buf 5) 100) ->
     error (fst (od_ec_dec_uint 4 (od_ec_dec_init sample_buf 5) 100)) = 1 /\
     snd (od_ec_dec_uint 4 (od_ec_dec_init sample_buf 5) 100) = 100 - 1) /\
  (snd (uint_combined 4 (od_ec_dec_init sample_buf 5) 100) <= 100 - 1 ->
     snd (od_ec_dec_uint 4 (od_ec_dec_init sample_buf 5) 100) =
     snd (uint_combined 4 (od_ec_dec_init sample_buf 5) 100) /\
     error (fst (od_ec_dec_uint 4 (od_ec_dec_init sample_buf 5) 100)) =
     error (od_ec_dec_init sample_buf 5)).
Proof.
  apply (uint_fault 4 (od_ec_dec_init sample_buf 5) 100).
  - vm_compute. reflexivity.
  - lia.
Defined.

(** C5. The fault flag is sticky: from a context whose error field is 1,
    every call of the decoder (the decode calls, [od_ec_dec_update],
    [od_ec_dec_bit_logp], the table decoders, [od_ec_dec_uint],
    [od_ec_dec_bits]) leaves a context whose error field is 1; every call
    but a table decoder always returns. *)
Theorem fault_sticky : forall ub c st,
  error st = 1 ->
  (is_table_call c = false -> run ub c st <> None) /\
  (forall st' v, run ub c st = Some (st', v) -> error st' = 1).
Proof.
  intros ub c st He. split.
  - intro Hc. destruct c; cbn [run]; try discriminate; discriminate Hc.
  - intros st' v E.
    destruct (run_error ub c st st' v E) as [H | H]; [rewrite H|]; assumption.
Qed.

Lemma fault_sticky_witness :
  (is_table_call (UInt 100) = false ->
   run 4 (UInt 100) (set_error (od_ec_dec_init sample_buf 5) 1) <> None) /\
  (forall st' v,
     run 4 (UInt 100) (set_error (od_ec_dec_init sample_buf 5) 1) =
     Some (st', v) -> error st' = 1).
Proof.
  apply (fault_sticky 4 (UInt 100) (set_error (od_ec_dec_init sample_buf 5) 1)).
  reflexivity.
Defined.

(** C6. For [ftb] from 1 to 15 with [1<<ftb] at most 32767, and a context
    whose range is below 0x10000 (as the range field always is),
    [od_ec_decode_bin] with [ftb] returns the value and leaves the context,
    [ext] included, that [od_ec_decode] with [1<<ftb] does. *)
Theorem decode_bin_is_decode : forall st ftb,
  1 <= ftb <= 15 -> Z.shiftl 1 ftb <= 32767 -> rng st < 0x10000 ->
  od_ec_decode_bin st ftb = od_ec_decode st (Z.shiftl 1 ftb).
Proof.
  intros st ftb Hb Hft Hr.
  rewrite shiftl_pow2 in * by lia. rewrite Z.mul_1_l in *.
  assert (Hb14 : ftb <= 14).
  { destruct (Z_le_gt_dec ftb 14) as [H | H]; [exact H|].
    assert (ftb = 15) as -> by lia. vm_compute in Hft. congruence. }
  pose proof (pow2_pos (ftb - 1) ltac:(lia)) as Hp.
  assert (E2 : 2 ^ ftb = 2 * 2 ^ (ftb - 1)).
  { replace ftb with (Z.succ (ftb - 1)) at 1 by lia.
    apply Z.pow_succ_r. lia. }
  assert (Ek : OD_ILOG_NZ (2 ^ ftb - 1) = ftb)
    by (apply ilog_unique; lia).
  assert (E15 : 2 ^ ftb * 2 ^ (15 - ftb) = 32768).
  { rewrite <- Z.pow_add_r by lia. replace (ftb + (15 - ftb)) with 15 by lia.
    reflexivity. }
  unfold od_ec_decode_bin, od_ec_decode.
  rewrite (u32_small (2 ^ ftb - 1)) by lia. rewrite Ek.
  rewrite (shiftl_pow2 (2 ^ ftb)) by lia. rewrite E15.
  change (u32 32768) with 32768. change (u32 (Z.shiftl 32768 1)) with 65536.
  destruct (65536 <=? rng st) eqn:C; [apply Z.leb_le in C; lia|].
  rewrite s32_small by lia. reflexivity.
Qed.

Lemma decode_bin_is_decode_witness :
  od_ec_decode_bin (od_ec_dec_init sample_buf 5) 3 =
  od_ec_decode (od_ec_dec_init sample_buf 5) (Z.shiftl 1 3).
Proof.
  apply (decode_bin_is_decode (od_ec_dec_init sample_buf 5) 3).
  - lia.
  - vm_compute. discriminate.
  - vm_compute. reflexivity.
Defined.

(** C7. [od_ec_dec_normalize] returns its argument [_ret] unchanged and adds
    exactly [d = 16 - OD_ILOG_NZ(_rng)] to [nbits_total], for every context,
    every new window and every new range that is not zero. *)
Theorem normalize_passthrough : forall st dif r ret,
  1 <= r ->
  snd (od_ec_dec_normalize st dif r ret) = ret /\
  nbits_total (fst (od_ec_dec_normalize st dif r ret)) =
  nbits_total st + (16 - OD_ILOG_NZ r).
Proof.
  intros st dif r ret _. split.
  - apply normalize_ret.
  - apply normalize_nbits_total.
Qed.

Lemma normalize_passthrough_witness :
  snd (od_ec_dec_normalize (od_ec_dec_init sample_buf 5) 1000 300 7) = 7 /\
  nbits_total
    (fst (od_ec_dec_normalize (od_ec_dec_init sample_buf 5) 1000 300 7)) =
  nbits_total (od_ec_dec_init sample_buf 5) + (16 - OD_ILOG_NZ 300).
Proof.
  apply (normalize_passthrough (od_ec_dec_init sample_buf 5) 1000 300 7).
  lia.
Defined.

(** C8. On a decoder that satisfies its invariants, whatever its buffer,
    [od_ec_dec_uint] with the total 1 returns 0. *)
Theorem uint_one : forall ub st,
  0 <= ub <= 15 -> dec_ok st -> snd (od_ec_dec_uint ub st 1) = 0.
Proof.
  intros ub st Hub Hok.
  assert (Hp : 1 <= 2 ^ ub <= 2 ^ 15).
  { split; [pose proof (pow2_pos ub); lia|].
    apply Z.pow_le_mono_r; lia. }
  change (2 ^ 15) with 32768 in Hp.
  rewrite uint_small_eq.
  - cbn [snd].
    destruct (decode_any_post st 1 Hok ltac:(lia)) as [_ [Hv _]]. lia.
  - rewrite shiftl_pow2 by lia. rewrite Z.mul_1_l.
    rewrite u32_small by lia. lia.
Qed.

Lemma uint_one_witness :
  snd (od_ec_dec_uint 4 (od_ec_dec_init sample_buf 5) 1) = 0.
Proof.
  apply (uint_one 4 (od_ec_dec_init sample_buf 5)).
  - lia.
  - apply init_ok. lia.
Defined.

(** C9. On a decoder initialized with [storage = 0], [od_ec_dec_bits] with 8
    bits returns 0, leaves the error field at 0 and adds exactly 8 to
    [nbits_total]. *)
Theorem bits_exhausted : forall b,
  snd (od_ec_dec_bits (od_ec_dec_init b 0) 8) = 0 /\
  error (od_ec_dec_init b 0) = 0 /\
  error (fst (od_ec_dec_bits (od_ec_dec_init b 0) 8)) = 0 /\
  nbits_total (fst (od_ec_dec_bits (od_ec_dec_init b 0) 8)) =
  nbits_total (od_ec_dec_init b 0) + 8.
Proof. intro b. repeat split. Qed.

(** C10. [od_ec_dec_bits] with 0 bits returns 0 and leaves the whole
    context as it was: no refill from the end of the buffer, [end_window],
    [nend_bits], [end_offs] and [nbits_total] unchanged. *)
Theorem bits_zero_noop : forall st, od_ec_dec_bits st 0 = (st, 0).
Proof.
  intro st. unfold od_ec_dec_bits.
  pose proof (u32_range (nend_bits st)) as Hu.
  destruct (u32 (nend_bits st) <? 0) eqn:C; [apply Z.ltb_lt in C; lia|].
  change (u32 (u32 (Z.shiftl 1 0) - 1)) with 0.
  rewrite Z.land_0_r, Z.shiftr_0_r, Z.sub_0_r, Z.add_0_r.
  destruct st; reflexivity.
Qed.

(** * Further properties of the decoder *)

(** ** The invariant behind the range *)

(** X1. In every context reached from [od_ec_dec_init] by documented calls
    the window is below the range (by its 16 top bits too), and [cnt] is
    between 0 and the sentinel. *)
Theorem window_below_range : forall ub st,
  reachable ub st ->
  0 <= val st < rng st * 2 ^ 16 /\ 0 <= top16 st < rng st /\
  0 <= cnt st <= OD_EC_LOTS_OF_BITS.
Proof.
  intros ub st H. pose proof (reachable_ok ub st H) as Hok.
  destruct (top16_eq st Hok) as [_ HD].
  destruct Hok as [_ Hv Hc _ _ _]. repeat split; lia.
Qed.

Lemma window_below_range_witness :
  let st := fst (od_ec_dec_bit_logp (od_ec_dec_init sample_buf 5) 3) in
  0 <= val st < rng st * 2 ^ 16 /\ 0 <= top16 st < rng st /\
  0 <= cnt st <= OD_EC_LOTS_OF_BITS.
Proof.
  apply (window_below_range 4).
  apply (reach_call 4 (od_ec_dec_init sample_buf 5) (BitLogp 3) _ 0).
  - apply reach_init. lia.
  - cbn. lia.
  - reflexivity.
Defined.

(** X2. A documented call on a reachable context always returns (the table
    walks of all four table decoders stay inside their table), and the
    context it leaves is reachable again. *)
Theorem legal_call_returns : forall ub st c,
  reachable ub st -> legal ub st c ->
  exists st' v, run ub c st = Some (st', v) /\ reachable ub st'.
Proof.
  intros ub st c Hr Hl.
  destruct (step_returns ub st c (reachable_ok ub st Hr) Hl) as [st' [v E]].
  exists st', v. split; [exact E|].
  apply (reach_call ub st c st' v); assumption.
Qed.

Lemma legal_call_returns_witness :
  exists st' v,
    run 4 (Icdf16 [7; 5; 5; 2; 0] 3) (od_ec_dec_init sample_buf 5) =
    Some (st', v) /\ reachable 4 st'.
Proof.
  apply (legal_call_returns 4 (od_ec_dec_init sample_buf 5)
           (Icdf16 [7; 5; 5; 2; 0] 3)).
  - apply reach_init. lia.
  - cbn. lia.
Defined.

(** X3. The 16-bit table decoders [od_ec_dec_icdf16_ft] and
    [od_ec_dec_icdf16] return, like the 8-bit ones, the first index whose
    entry is below the frequency of the walk, inside the table. *)
Theorem icdf16_index_in_table : forall st t,
  dec_ok st -> icdf_table (tbl16 t) ->
  (forall ft, 1 <= ft <= 32767 ->
     exists st' s, od_ec_dec_icdf16_ft st t ft = Some (st', s) /\
                   0 <= s < Z.of_nat (length t) /\
                   first_below (tbl16 t) (icdf_ft_q st ft) s) /\
  (forall ftb, 0 <= ftb <= 15 ->
     exists st' s, od_ec_dec_icdf16 st t ftb = Some (st', s) /\
                   0 <= s < Z.of_nat (length t) /\
                   first_below (tbl16 t) (icdf_q st ftb) s).
Proof.
  intros st t Hok [_ [_ Hlast]]. split.
  - intros ft Hft.
    destruct (icdf_ft_body_index st (tbl16 t) ft Hok Hft Hlast)
      as [st' [s [E Hs]]].
    exists st', s. split; [exact E|]. split; [| exact Hs].
    destruct Hs as [Hs _]. unfold tbl16 in Hs. rewrite length_map in Hs.
    exact Hs.
  - intros ftb Hft.
    destruct (icdf_body_index st (tbl16 t) ftb Hok Hft Hlast)
      as [st' [s [E Hs]]].
    exists st', s. split; [exact E|]. split; [| exact Hs].
    destruct Hs as [Hs _]. unfold tbl16 in Hs. rewrite length_map in Hs.
    exact Hs.
Qed.

Lemma icdf16_index_in_table_witness :
  (forall ft, 1 <= ft <= 32767 ->
     exists st' s,
       od_ec_dec_icdf16_ft (od_ec_dec_init sample_buf 5) [300; 20; 20; 0] ft =
       Some (st', s) /\
       0 <= s < Z.of_nat (length [300; 20; 20; 0]) /\
       first_below (tbl16 [300; 20; 20; 0])
         (icdf_ft_q (od_ec_dec_init sample_buf 5) ft) s) /\
  (forall ftb, 0 <= ftb <= 15 ->
     exists st' s,
       od_ec_dec_icdf16 (od_ec_dec_init sample_buf 5) [300; 20; 20; 0] ftb =
       Some (st', s) /\
       0 <= s < Z.of_nat (length [300; 20; 20; 0]) /\
       first_below (tbl16 [300; 20; 20; 0])
         (icdf_q (od_ec_dec_init sample_buf 5) ftb) s).
Proof.
  apply (icdf16_index_in_table (od_ec_dec_init sample_buf 5)
           [300; 20; 20; 0]).
  - apply init_ok. lia.
  - split; [discriminate|]. split; [cbn; lia | reflexivity].
Defined.

(** ** The decode calls *)

(** X4. On a context that satisfies the invariant, [od_ec_decode] returns a
    value below its total, [od_ec_decode_bin_normalized] a value below 32768
    and [od_ec_decode_bin] a value below [1<<_ftb]. *)
Theorem decode_value_ranges : forall st,
  dec_ok st ->
  (forall ft, 1 <= ft <= 32767 -> 0 <= snd (od_ec_decode st ft) < ft) /\
  0 <= snd (od_ec_decode_bin_normalized st) < 32768 /\
  (forall ftb, 0 <= ftb <= 15 ->
     0 <= snd (od_ec_decode_bin st ftb) < 2 ^ ftb).
Proof.
  intros st Hok. split; [| split].
  - intros ft Hft. exact (proj1 (proj2 (decode_any_post st ft Hok Hft))).
  - exact (proj1 (proj2 (decode_bin_normalized_post st Hok))).
  - intros ftb Hb. exact (proj1 (proj2 (decode_bin_post st ftb Hok Hb))).
Qed.

Lemma decode_value_ranges_witness :
  (forall ft, 1 <= ft <= 32767 ->
     0 <= snd (od_ec_decode (od_ec_dec_init sample_buf 5) ft) < ft) /\
  0 <= snd (od_ec_decode_bin_normalized (od_ec_dec_init sample_buf 5))
    < 32768 /\
  (forall ftb, 0 <= ftb <= 15 ->
     0 <= snd (od_ec_decode_bin (od_ec_dec_init sample_buf 5) ftb)
       < 2 ^ ftb).
Proof.
  apply (decode_value_ranges (od_ec_dec_init sample_buf 5)).
  apply init_ok. lia.
Defined.

(** X5. As the source says of it, [od_ec_decode_bin_normalized] is
    [od_ec_decode_normalized] with the total 32768: same value, same context
    ([ext] is 0), whenever the range is below 0x10000. *)
Theorem decode_bin_normalized_is_normalized : forall st,
  rng st < 0x10000 ->
  od_ec_decode_bin_normalized st = od_ec_decode_normalized st 32768.
Proof.
  intros st Hr. unfold od_ec_decode_bin_normalized, od_ec_decode_normalized.
  change (u32 (Z.shiftl 32768 1)) with 65536.
  destruct (65536 <=? rng st) eqn:C; [apply Z.leb_le in C; lia|].
  change (u32 (Z.shiftl 32768 0)) with 32768.
  rewrite Z.shiftr_0_r. reflexivity.
Qed.

Lemma decode_bin_normalized_is_normalized_witness :
  od_ec_decode_bin_normalized (od_ec_dec_init sample_buf 5) =
  od_ec_decode_normalized (od_ec_dec_init sample_buf 5) 32768.
Proof.
  apply (decode_bin_normalized_is_normalized (od_ec_dec_init sample_buf 5)).
  vm_compute. reflexivity.
Defined.

(** ** od_ec_dec_uint and the fault flag *)

Lemma bits_ret_nonneg : forall st n, 0 <= snd (od_ec_dec_bits st n).
Proof.
  intros st n. unfold od_ec_dec_bits.
  destruct (u32 (nend_bits st) <? n);
    [destruct (od_ec_dec_bits_refill _ _ _ _ _ _) as [[eo w] a] |];
    cbn [snd]; apply Z.land_nonneg; left; apply u32_range.
Qed.

(** X6. [od_ec_dec_uint] never returns a value outside [0, ft), fault or
    not. *)
Theorem uint_in_range : forall ub st ft,
  dec_ok st -> 1 <= ub <= 14 -> 1 <= ft < 2 ^ 32 ->
  0 <= snd (od_ec_dec_uint ub st ft) < ft.
Proof.
  intros ub st ft Hok Hub Hft.
  assert (Hpu : 2 <= 2 ^ ub <= 2 ^ 14).
  { split; [change 2 with (2 ^ 1) at 1|]; apply Z.pow_le_mono_r; lia. }
  change (2 ^ 14) with 16384 in Hpu.
  assert (Eu : u32 (Z.shiftl 1 ub) = 2 ^ ub).
  { rewrite shiftl_pow2 by lia. rewrite Z.mul_1_l. apply u32_small. lia. }
  destruct (Z_lt_le_dec (u32 (Z.shiftl 1 ub)) ft) as [H | H].
  - rewrite (uint_large_eq ub st ft H). rewrite (u32_small (ft - 1)) by lia.
    destruct (_ <=? ft - 1) eqn:C; cbn [snd]; [| lia].
    apply Z.leb_le in C. split; [| lia].
    unfold uint_combined in *. cbn [snd] in *.
    apply Z.lor_nonneg. split; [apply u32_range | apply bits_ret_nonneg].
  - rewrite (uint_small_eq ub st ft H). cbn [snd].
    destruct (decode_any_post st ft Hok ltac:(lia)) as [_ [Hv _]]. exact Hv.
Qed.

Lemma uint_in_range_witness :
  0 <= snd (od_ec_dec_uint 4 (od_ec_dec_init sample_buf 5) 1000) < 1000.
Proof.
  apply (uint_in_range 4 (od_ec_dec_init sample_buf 5) 1000).
  - apply init_ok. lia.
  - lia.
  - lia.
Defined.

(** X7. Only [od_ec_dec_uint] with a total above [1<<OD_EC_UINT_BITS] can
    change the error field: every other call, and [od_ec_dec_uint] with a
    smaller total, leaves it as it was. *)
Theorem error_only_from_uint : forall ub c st st' v,
  (forall ft, c = UInt ft -> ft <= u32 (Z.shiftl 1 ub)) ->
  run ub c st = Some (st', v) -> error st' = error st.
Proof.
  intros ub c st st' v Hc E.
  destruct c; cbn [run] in E;
    try (rewrite (some_pair_fst _ _ _ E)).
  - reflexivity.
  - apply decode_error.
  - reflexivity.
  - reflexivity.
  - apply update_error.
  - apply bit_logp_error.
  - apply (icdf_ft_body_error _ _ _ _ _ E).
  - apply (icdf_ft_body_error _ _ _ _ _ E).
  - apply (icdf_body_error _ _ _ _ _ E).
  - apply (icdf_body_error _ _ _ _ _ E).
  - rewrite (uint_small_eq ub st ft (Hc ft eq_refl)). cbn [fst].
    rewrite update_error. apply decode_error.
  - apply bits_error.
Qed.

Lemma error_only_from_uint_witness :
  error (fst (od_ec_dec_uint 4 (od_ec_dec_init sample_buf 5) 16)) =
  error (od_ec_dec_init sample_buf 5).
Proof.
  apply (error_only_from_uint 4 (UInt 16) (od_ec_dec_init sample_buf 5) _
           (snd (od_ec_dec_uint 4 (od_ec_dec_init sample_buf 5) 16))).
  - intros ft E. injection E as <-. vm_compute. discriminate.
  - reflexivity.
Defined.

(** ** od_ec_dec_init on short and long buffers *)

Lemma init_unfold : forall b n,
  od_ec_dec_init b n =
  let '(c, o, dif) := od_ec_dec_refill 3 b n 23 (-15) 0 0 in
  mk_dec b n 0 0 0 1 o 0x8000 dif c 0 0.
Proof. reflexivity. Qed.

Lemma byte_shift : forall b i s, 0 <= s <= 23 ->
  u32 (Z.shiftl (buf_at b i) s) = buf_at b i * 2 ^ s /\
  0 <= buf_at b i * 2 ^ s < 2 ^ (s + 8).
Proof.
  intros b i s Hs. pose proof (byte_range b i) as Hb.
  pose proof (pow2_pos s ltac:(lia)) as Hp.
  assert (Hp23 : 2 ^ s <= 2 ^ 23) by (apply Z.pow_le_mono_r; lia).
  change (2 ^ 23) with 8388608 in Hp23.
  rewrite shiftl_pow2 by lia.
  rewrite Z.pow_add_r by lia. change (2 ^ 8) with 256.
  split; [apply u32_small; change (2 ^ 32) with 4294967296; nia | nia].
Qed.

(** X8. [od_ec_dec_init] reads at most three bytes, most significant first,
    under the top bit of the window: with three bytes or more it leaves
    [offs = 3] and [cnt = 9]; with fewer it reads them all and sets [cnt] to
    the sentinel.  The raw-bit side starts empty, [nbits_total] at 1 and the
    error field at 0. *)
Theorem init_window : forall b n,
  0 <= n ->
  let st := od_ec_dec_init b n in
  offs st = Z.min n 3 /\
  cnt st = (if n <? 3 then OD_EC_LOTS_OF_BITS else 9) /\
  val st = (if 0 <? n then buf_at b 0 * 2 ^ 23 else 0) +
           (if 1 <? n then buf_at b 1 * 2 ^ 15 else 0) +
           (if 2 <? n then buf_at b 2 * 2 ^ 7 else 0) /\
  end_offs st = 0 /\ end_window st = 0 /\ nend_bits st = 0 /\
  nbits_total st = 1 /\ error st = 0 /\ storage st = n /\ buf st = b.
Proof.
  intros b n Hn. cbv zeta. rewrite init_unfold.
  destruct (byte_shift b 0 23 ltac:(lia)) as [E0 H0].
  destruct (byte_shift b 1 15 ltac:(lia)) as [E1 H1].
  destruct (byte_shift b 2 7 ltac:(lia)) as [E2 H2].
  change (23 + 8) with 31 in H0. change (15 + 8) with 23 in H1.
  change (7 + 8) with 15 in H2.
  cbn [od_ec_dec_refill]. change (23 <? 0) with false. cbv iota.
  destruct (n <=? 0) eqn:C0.
  { apply Z.leb_le in C0. assert (n = 0) as -> by lia.
    cbn [offs cnt val end_offs end_window nend_bits nbits_total error
         storage buf]. repeat split. }
  apply Z.leb_gt in C0.
  change (u32 (0 + 1)) with 1. change (23 - 8) with 15.
  change (15 <? 0) with false. cbv iota.
  rewrite Z.lor_0_l, E0.
  destruct (n <=? 1) eqn:C1.
  { apply Z.leb_le in C1. assert (n = 1) as -> by lia.
    cbn [offs cnt val end_offs end_window nend_bits nbits_total error
         storage buf]. repeat split. cbn [Z.ltb Z.compare Pos.compare
         Pos.compare_cont]. lia. }
  apply Z.leb_gt in C1.
  change (u32 (1 + 1)) with 2. change (15 - 8) with 7.
  change (7 <? 0) with false. cbv iota.
  rewrite E1.
  rewrite (lor_disjoint (buf_at b 0 * 2 ^ 23) (buf_at b 1 * 2 ^ 15) 23)
    by (try lia; apply Z.divide_factor_r).
  destruct (n <=? 2) eqn:C2.
  { apply Z.leb_le in C2. assert (n = 2) as -> by lia.
    cbn [offs cnt val end_offs end_window nend_bits nbits_total error
         storage buf]. repeat split. cbn [Z.ltb Z.compare Pos.compare
         Pos.compare_cont]. lia. }
  apply Z.leb_gt in C2.
  change (u32 (2 + 1)) with 3. rewrite E2.
  rewrite (lor_disjoint _ (buf_at b 2 * 2 ^ 7) 15);
    [| lia | | lia].
  - cbn [offs cnt val end_offs end_window nend_bits nbits_total error
         storage buf].
    assert (L0 : (0 <? n) = true) by (apply Z.ltb_lt; lia).
    assert (L1 : (1 <? n) = true) by (apply Z.ltb_lt; lia).
    assert (L2 : (2 <? n) = true) by (apply Z.ltb_lt; lia).
    assert (L3 : (n <? 3) = false) by (apply Z.ltb_ge; lia).
    rewrite L0, L1, L2, L3. repeat split; lia.
  - apply Z.divide_add_r.
    + apply Z.divide_mul_r. apply pow2_divide. lia.
    + apply Z.divide_factor_r.
Qed.

Lemma init_window_witness :
  let st := od_ec_dec_init sample_buf 2 in
  offs st = Z.min 2 3 /\
  cnt st = (if 2 <? 3 then OD_EC_LOTS_OF_BITS else 9) /\
  val st = (if 0 <? 2 then buf_at sample_buf 0 * 2 ^ 23 else 0) +
           (if 1 <? 2 then buf_at sample_buf 1 * 2 ^ 15 else 0) +
           (if 2 <? 2 then buf_at sample_buf 2 * 2 ^ 7 else 0) /\
  end_offs st = 0 /\ end_window st = 0 /\ nend_bits st = 0 /\
  nbits_total st = 1 /\ error st = 0 /\ storage st = 2 /\
  buf st = sample_buf.
Proof. apply (init_window sample_buf 2). lia. Defined.

(** ** What normalization leaves alone *)

Ltac norm_destruct :=
  unfold od_ec_dec_normalize;
  match goal with
  | |- context [if ?c <? 0 then _ else _] => destruct (c <? 0)
  end;
  [ match goal with
    | |- context [od_ec_dec_refill ?f ?b ?st ?s ?c ?o ?d] =>
        destruct (od_ec_dec_refill f b st s c o d) as [[? ?] ?]
    end | ].

Lemma normalize_same_raw : forall st dif r ret,
  same_raw st (fst (od_ec_dec_normalize st dif r ret)).
Proof. intros. norm_destruct; repeat split. Qed.

Lemma normalize_ext : forall st dif r ret,
  ext (fst (od_ec_dec_normalize st dif r ret)) = ext st.
Proof. intros. norm_destruct; reflexivity. Qed.

Lemma normalize_set_ext : forall st e dif r ret ret',
  fst (od_ec_dec_normalize (set_ext st e) dif r ret) =
  set_ext (fst (od_ec_dec_normalize st dif r ret')) e.
Proof.
  intros. unfold od_ec_dec_normalize.
  cbn [set_ext buf storage end_offs end_window nend_bits nbits_total offs
       rng val cnt ext error].
  destruct (_ <? 0);
    [destruct (od_ec_dec_refill _ _ _ _ _ _ _) as [[c o] d] |];
    reflexivity.
Qed.

Lemma set_ext_same : forall st, set_ext st (ext st) = st.
Proof. intro st. destruct st. reflexivity. Qed.

Lemma narrow_forget_ext : forall st e d fl fh ret,
  ec_narrow st d fl fh ret =
  (set_ext (fst (ec_narrow (set_ext st e) d fl fh 0)) (ext st), ret).
Proof.
  intros. unfold ec_narrow.
  change (val (set_ext st e)) with (val st).
  rewrite (normalize_set_ext st e _ _ 0 ret).
  match goal with
  | |- ?N = _ =>
      pose proof (normalize_ext st _ _ ret : ext (fst N) = ext st) as Ee;
      pose proof (normalize_ret st _ _ ret : snd N = ret) as Er;
      set (n := N) in *
  end.
  change (set_ext (set_ext (fst n) e) (ext st)) with (set_ext (fst n) (ext st)).
  rewrite <- Ee, set_ext_same. rewrite <- Er. apply surjective_pairing.
Qed.

Lemma update_narrow : forall st fl fh ft,
  od_ec_dec_update st fl fh ft =
  fst (ec_narrow st (u32 (rng st - u32 (Z.shiftl ft (ext st))))
         (u32 (Z.shiftl fl (ext st))) (u32 (Z.shiftl fh (ext st))) 0).
Proof. reflexivity. Qed.

(** ** The table decoders and od_ec_dec_bit_logp as decode, then update *)

Lemma icdf_ft_body_compose : forall st tbl ft,
  dec_ok st -> 1 <= ft <= 32767 ->
  icdf_ft_body st tbl ft =
  match icdf_walk tbl (u32 (ft - snd (od_ec_decode st ft))) 0 ft with
  | None => None
  | Some (ret, fl) =>
      Some (set_ext
              (od_ec_dec_update (fst (od_ec_decode st ft))
                 (u32 (ft - fl)) (u32 (ft - icdf_at tbl ret)) ft)
              (ext st),
            ret)
  end.
Proof.
  intros st tbl ft Hok Hft. pose proof Hok as [Hr _ _ _ _ _].
  destruct (ec_scale_spec ft (rng st) Hft Hr) as [Hs [Ef Hb]].
  destruct (window_shifts st Hok) as [E17 E16].
  rewrite icdf_ft_body_eq, od_ec_decode_scale. cbn [fst snd].
  unfold icdf_ft_q. rewrite E17, E16.
  destruct (icdf_walk _ _ _ _) as [[ret fl] |]; [| reflexivity].
  apply f_equal. rewrite update_narrow.
  change (ext (set_ext st ?e)) with e. change (rng (set_ext st ?e)) with (rng st).
  rewrite (shiftl_pow2 ft) by lia. rewrite <- Ef.
  rewrite (u32_small (fst (ec_scale ft (rng st)))) by lia.
  apply narrow_forget_ext.
Qed.

Lemma icdf_body_compose : forall st tbl ftb,
  dec_ok st -> 0 <= ftb <= 15 -> icdf_wf tbl (2 ^ ftb) ->
  icdf_body st tbl ftb =
  match icdf_walk tbl (u32 (2 ^ ftb - snd (od_ec_decode_bin st ftb))) 0
          (2 ^ ftb) with
  | None => None
  | Some (ret, fl) =>
      Some (set_ext
              (od_ec_dec_update (fst (od_ec_decode_bin st ftb))
                 (2 ^ ftb - fl) (2 ^ ftb - icdf_at tbl ret) (2 ^ ftb))
              (ext st),
            ret)
  end.
Proof.
  intros st tbl ftb Hok Hft Hwf. pose proof Hok as [Hr _ _ _ _ _].
  destruct (window_shifts st Hok) as [E17 E16].
  destruct (icdf_q_spec st ftb Hok Hft) as [_ Hq].
  pose proof (pow2_pos (15 - ftb) ltac:(lia)) as HP.
  pose proof (pow2_pos ftb ltac:(lia)) as HF.
  assert (E15 : 2 ^ ftb * 2 ^ (15 - ftb) = 32768).
  { rewrite <- Z.pow_add_r by lia. replace (ftb + (15 - ftb)) with 15 by lia.
    reflexivity. }
  assert (HF15 : 2 ^ ftb <= 32768) by nia.
  assert (EF : u32 (Z.shiftl 1 ftb) = 2 ^ ftb).
  { rewrite shiftl_pow2 by lia. rewrite Z.mul_1_l. apply u32_small. lia. }
  assert (Eq : icdf_q st ftb = u32 (2 ^ ftb - snd (od_ec_decode_bin st ftb))).
  { unfold icdf_q, od_ec_decode_bin. cbn [snd]. rewrite E17, E16, EF.
    reflexivity. }
  rewrite icdf_body_eq, EF, <- Eq.
  destruct (icdf_walk_wf tbl (2 ^ ftb) (icdf_q st ftb) 0 (2 ^ ftb) (2 ^ ftb)
              Hwf ltac:(lia) ltac:(lia) ltac:(lia)) as [i [fl' [E [Hfl Hx]]]].
  rewrite E, icdf_at_nat. apply f_equal. rewrite update_narrow.
  unfold od_ec_decode_bin. cbn [fst].
  change (ext (set_ext st ?e)) with e. change (rng (set_ext st ?e)) with (rng st).
  rewrite s32_small by lia.
  set (x := nth i tbl 0) in *. rewrite !shiftl_pow2 by lia.
  set (F := 2 ^ ftb) in *. set (P := 2 ^ (15 - ftb)) in *.
  rewrite E15. change (u32 32768) with 32768.
  assert (Hfp : 0 <= fl' * P <= 32768) by nia.
  assert (Hxp : 0 <= x * P <= 32768) by nia.
  rewrite (u32_small (fl' * P)) by lia.
  replace ((F - fl') * P) with (32768 - fl' * P) by nia.
  replace ((F - x) * P) with (32768 - x * P) by nia.
  apply narrow_forget_ext.
Qed.

Lemma bit_logp_compose : forall st logp,
  dec_ok st -> 0 <= logp <= 15 ->
  od_ec_dec_bit_logp st logp = bit_logp_by_update st logp.
Proof.
  intros st logp Hok Hl. pose proof Hok as [Hr Hv Hc Ho Hs Hf].
  destruct (top16_eq st Hok) as [ED HD].
  assert (Hp : 1 <= 2 ^ (15 - logp) <= 2 ^ 15).
  { split; [pose proof (pow2_pos (15 - logp)); lia|].
    apply Z.pow_le_mono_r; lia. }
  change (2 ^ 15) with 32768 in Hp.
  unfold bit_logp_by_update, od_ec_decode_bin_normalized. cbn [fst snd].
  rewrite (maxi_value _ _ 32768 HD Hr ltac:(lia)).
  pose proof (value_below_total _ _ 32768 HD ltac:(lia)) as HM.
  rewrite (u32_small (Z.max _ _)) by lia.
  rewrite !update_narrow.
  change (ext (set_ext st 0)) with 0. change (rng (set_ext st 0)) with (rng st).
  rewrite <- (narrow_forget_ext st 0 _ _ _ 1).
  rewrite <- (narrow_forget_ext st 0 _ _ _ 0).
  unfold od_ec_dec_bit_logp, ec_narrow, OD_MINI, OD_EC_WINDOW_SIZE.
  change (32 - 16) with 16.
  rewrite !Z.shiftl_0_r.
  rewrite (u32_small (15 - logp)) by lia.
  rewrite (shiftl_pow2 1) by lia. rewrite Z.mul_1_l.
  rewrite s32_small by lia.
  set (p := 2 ^ (15 - logp)) in *.
  change (u32 32768) with 32768. change (u32 0) with 0.
  rewrite (u32_small (32768 - p)) by lia.
  rewrite (u32_small (rng st - 32768)) by lia.
  set (d := rng st - 32768) in *.
  set (v := 32768 - p + Z.min (32768 - p) d).
  assert (Hvb : 0 <= v < rng st) by (unfold v, d; lia).
  rewrite (u32_small v) by lia.
  rewrite (Z.min_l 0 d) by (unfold d; lia).
  rewrite (Z.min_r 32768 d) by (unfold d; lia).
  change (u32 (0 + 0)) with 0.
  replace (32768 + d) with (rng st) by (unfold d; lia).
  rewrite (u32_small (rng st)) by lia.
  rewrite !shiftl_pow2 by lia. change (0 * 2 ^ 16) with 0.
  change (u32 0) with 0. rewrite !Z.sub_0_r.
  change (2 ^ 16) with 65536 in *. change (2 ^ 32) with 4294967296 in *.
  rewrite (u32_small (v * 65536))
    by (change (2 ^ 32) with 4294967296; lia).
  rewrite (u32_small (val st))
    by (change (2 ^ 32) with 4294967296; lia).
  assert (Hiff : v * 65536 <= val st <->
                 32768 - p <= Z.max (top16 st / 2) (top16 st - d)).
  { rewrite ED. unfold v. zdiv. }
  destruct (v * 65536 <=? val st) eqn:C1;
    destruct (32768 - p <=? Z.max (top16 st / 2) (top16 st - d)) eqn:C2;
    cbn [Z.eqb Pos.eqb]; rewrite ?(u32_small v) by lia; try reflexivity.
  - apply Z.leb_le in C1. apply Z.leb_gt in C2. lia.
  - apply Z.leb_gt in C1. apply Z.leb_le in C2. lia.
Qed.

(** X9. The table decoders with an explicit total do what a caller can do
    with [od_ec_decode], a walk of the table and [od_ec_dec_update] with the
    bounds [ft - icdf[s-1], ft - icdf[s]) of the symbol found: same symbol,
    same context (the scratch field [ext] apart, which they leave alone). *)
Theorem icdf_ft_is_decode_update : forall st ft,
  dec_ok st -> 1 <= ft <= 32767 ->
  (forall t, od_ec_dec_icdf_ft st t ft = icdf_ft_by_update st (tbl8 t) ft) /\
  (forall t, od_ec_dec_icdf16_ft st t ft = icdf_ft_by_update st (tbl16 t) ft).
Proof.
  intros st ft Hok Hft.
  split; intro t; apply icdf_ft_body_compose; assumption.
Qed.

Lemma icdf_ft_is_decode_update_witness :
  (forall t, od_ec_dec_icdf_ft (od_ec_dec_init sample_buf 5) t 8 =
             icdf_ft_by_update (od_ec_dec_init sample_buf 5) (tbl8 t) 8) /\
  (forall t, od_ec_dec_icdf16_ft (od_ec_dec_init sample_buf 5) t 8 =
             icdf_ft_by_update (od_ec_dec_init sample_buf 5) (tbl16 t) 8).
Proof.
  apply (icdf_ft_is_decode_update (od_ec_dec_init sample_buf 5) 8).
  - apply init_ok. lia.
  - lia.
Defined.

(** X10. The table decoders with a number of bits do, on a table that does
    not increase from at most [1<<ftb] to a closing 0, what a caller can do
    with [od_ec_decode_bin], a walk of the table and [od_ec_dec_update]. *)
Theorem icdf_is_decode_bin_update : forall st ftb,
  dec_ok st -> 0 <= ftb <= 15 ->
  (forall t, icdf_wf (tbl8 t) (2 ^ ftb) ->
     od_ec_dec_icdf st t ftb = icdf_by_update st (tbl8 t) ftb) /\
  (forall t, icdf_wf (tbl16 t) (2 ^ ftb) ->
     od_ec_dec_icdf16 st t ftb = icdf_by_update st (tbl16 t) ftb).
Proof.
  intros st ftb Hok Hft.
  split; intros t Hwf; apply icdf_body_compose; assumption.
Qed.

Lemma icdf_is_decode_bin_update_witness :
  od_ec_dec_icdf (od_ec_dec_init sample_buf 5) sample_icdf 3 =
  icdf_by_update (od_ec_dec_init sample_buf 5) (tbl8 sample_icdf) 3.
Proof.
  apply (proj1 (icdf_is_decode_bin_update (od_ec_dec_init sample_buf 5) 3
                  ltac:(apply init_ok; lia) ltac:(lia))).
  cbn. lia.
Defined.

(** X11. [od_ec_dec_bit_logp] does what a caller can do with
    [od_ec_decode_bin_normalized] and [od_ec_dec_update]: it returns 1 when
    the decoded value is at least [32768 - 2^(15-logp)], and narrows the
    range to the interval of the bit. *)
Theorem bit_logp_is_decode_update : forall st logp,
  dec_ok st -> 0 <= logp <= 15 ->
  od_ec_dec_bit_logp st logp = bit_logp_by_update st logp.
Proof. exact bit_logp_compose. Qed.

Lemma bit_logp_is_decode_update_witness :
  od_ec_dec_bit_logp (od_ec_dec_init sample_buf 5) 2 =
  bit_logp_by_update (od_ec_dec_init sample_buf 5) 2.
Proof.
  apply (bit_logp_is_decode_update (od_ec_dec_init sample_buf 5) 2).
  - apply init_ok. lia.
  - lia.
Defined.

(** ** The bits a call consumes *)










(** ** Raw bits as a stream read from the end of the buffer *)

Lemma raw_tail_bound : forall b stor n,
  0 <= raw_tail b stor n < 2 ^ (8 * Z.of_nat n).
Proof.
  intros b stor n. induction n as [| n IH].
  - cbn. lia.
  - cbn [raw_tail]. pose proof (byte_range b (stor - 1 - Z.of_nat n)) as Hb.
    pose proof (pow2_pos (8 * Z.of_nat n) ltac:(lia)) as Hp.
    replace (8 * Z.of_nat (S n)) with (8 * Z.of_nat n + 8) by lia.
    rewrite Z.pow_add_r by lia. change (2 ^ 8) with 256. nia.
Qed.

Lemma raw_tail_split : forall b stor m n, (n <= m)%nat ->
  exists rest, 0 <= rest /\
    raw_tail b stor m = raw_tail b stor n + 2 ^ (8 * Z.of_nat n) * rest.
Proof.
  intros b stor m n H. induction m as [| m IH].
  - assert (n = O) as -> by lia. exists 0. cbn. lia.
  - destruct (Nat.eq_dec n (S m)) as [-> | Hne].
    + exists 0. lia.
    + destruct (IH ltac:(lia)) as [rest [Hr E]].
      pose proof (byte_range b (stor - 1 - Z.of_nat m)) as Hb.
      exists (rest + buf_at b (stor - 1 - Z.of_nat m)
                     * 2 ^ (8 * Z.of_nat m - 8 * Z.of_nat n)).
      pose proof (pow2_pos (8 * Z.of_nat m - 8 * Z.of_nat n) ltac:(lia)).
      split; [nia|]. cbn [raw_tail]. rewrite E.
      replace (8 * Z.of_nat m)
        with (8 * Z.of_nat n + (8 * Z.of_nat m - 8 * Z.of_nat n)) at 1 by lia.
      rewrite Z.pow_add_r by lia. ring.
Qed.

(** The low bits of the window are those of the whole stream as soon as the
    window holds that many. *)
Lemma stream_low_bits : forall b stor m M k n,
  (m <= M)%nat -> 0 <= k -> 0 <= n -> n <= 8 * Z.of_nat m - k ->
  (raw_tail b stor m / 2 ^ k) mod 2 ^ n =
  (raw_tail b stor M / 2 ^ k) mod 2 ^ n.
Proof.
  intros b stor m M k n Hm Hk Hn Hle.
  destruct (raw_tail_split b stor M m Hm) as [rest [Hr E]]. rewrite E.
  replace (8 * Z.of_nat m) with (k + n + (8 * Z.of_nat m - k - n)) by lia.
  rewrite !Z.pow_add_r by lia.
  pose proof (pow2_pos k Hk). pose proof (pow2_pos n Hn).
  replace (2 ^ k * 2 ^ n * 2 ^ (8 * Z.of_nat m - k - n) * rest)
    with ((2 ^ (8 * Z.of_nat m - k - n) * rest * 2 ^ n) * 2 ^ k) by ring.
  rewrite Z.div_add by lia. rewrite Z.mod_add by lia. reflexivity.
Qed.

Lemma bits_refill_spec : forall fuel b stor m w a k,
  0 <= k -> Z.of_nat m <= stor < 2 ^ 32 ->
  a = 8 * Z.of_nat m - k -> 0 <= a <= 24 ->
  w = raw_tail b stor m / 2 ^ k ->
  OD_EC_WINDOW_SIZE - 8 - a < 8 * Z.of_nat fuel ->
  exists m' w' a',
    od_ec_dec_bits_refill fuel b stor (Z.of_nat m) w a =
      (Z.of_nat m', w', a') /\
    (m <= m')%nat /\ Z.of_nat m' <= stor /\
    w' = raw_tail b stor m' / 2 ^ k /\ 0 <= w' < 2 ^ 32 /\
    ((a' = 8 * Z.of_nat m' - k /\ 25 <= a' <= 32) \/
     (Z.of_nat m' = stor /\ a' = OD_EC_LOTS_OF_BITS)).
Proof.
  unfold OD_EC_WINDOW_SIZE.
  induction fuel as [| fuel IH]; intros b stor m w a k Hk Hm Ea Ha Ew Hf;
    [lia|].
  pose proof (raw_tail_bound b stor m) as Hb.
  pose proof (pow2_pos k Hk) as Hpk.
  pose proof (pow2_pos a ltac:(lia)) as Hpa.
  assert (Hpa24 : 2 ^ a <= 2 ^ 24) by (apply Z.pow_le_mono_r; lia).
  change (2 ^ 24) with 16777216 in Hpa24.
  assert (Hw : 0 <= w < 2 ^ a).
  { subst w. split; [apply Z.div_pos; lia|].
    apply Z.div_lt_upper_bound; [lia|].
    rewrite <- Z.pow_add_r by lia.
    replace (k + a) with (8 * Z.of_nat m) by lia. lia. }
  cbn [od_ec_dec_bits_refill]. destruct (stor <=? Z.of_nat m) eqn:C.
  - apply Z.leb_le in C. exists m, w, OD_EC_LOTS_OF_BITS.
    split; [reflexivity|]. split; [lia|]. split; [lia|].
    split; [exact Ew|]. split; [change (2 ^ 32) with 4294967296; lia|].
    right. split; [lia | reflexivity].
  - apply Z.leb_gt in C.
    rewrite (u32_small (Z.of_nat m + 1)) by lia.
    rewrite (u32_small (stor - (Z.of_nat m + 1))) by lia.
    replace (stor - (Z.of_nat m + 1)) with (stor - 1 - Z.of_nat m) by lia.
    pose proof (byte_range b (stor - 1 - Z.of_nat m)) as Hby.
    set (x := buf_at b (stor - 1 - Z.of_nat m)) in *.
    rewrite shiftl_pow2 by lia.
    rewrite (u32_small (x * 2 ^ a))
      by (change (2 ^ 32) with 4294967296; nia).
    rewrite Z.lor_comm.
    rewrite (lor_disjoint (x * 2 ^ a) w a)
      by (try lia; apply Z.divide_factor_r).
    assert (E1 : raw_tail b stor (S m) / 2 ^ k = x * 2 ^ a + w).
    { cbn [raw_tail]. fold x.
      replace (8 * Z.of_nat m) with (a + k) by lia.
      rewrite Z.pow_add_r by lia. rewrite Z.mul_assoc.
      rewrite Z.div_add by lia. lia. }
    replace (Z.of_nat m + 1) with (Z.of_nat (S m)) by lia.
    assert (Hw1 : 0 <= x * 2 ^ a + w < 2 ^ (a + 8)).
    { rewrite Z.pow_add_r by lia. change (2 ^ 8) with 256. nia. }
    change (OD_EC_WINDOW_SIZE - 8) with 24.
    destruct (a + 8 <=? 24) eqn:D.
    + apply Z.leb_le in D.
      destruct (IH b stor (S m) (x * 2 ^ a + w) (a + 8) k)
        as [m' [w' [a' [E [Hmm H]]]]];
        [lia | lia | lia | lia | symmetry; exact E1 | lia |].
      exists m', w', a'. split; [exact E|]. split; [lia | exact H].
    + apply Z.leb_gt in D. exists (S m), (x * 2 ^ a + w), (a + 8).
      split; [reflexivity|]. split; [lia|]. split; [lia|].
      split; [symmetry; exact E1|]. split.
      * assert (2 ^ (a + 8) <= 2 ^ 32) by (apply Z.pow_le_mono_r; lia). lia.
      * left. lia.
Qed.

Lemma bits_mask : forall w n, 0 <= w < 2 ^ 32 -> 0 <= n <= 25 ->
  Z.land (u32 w) (u32 (u32 (Z.shiftl 1 n) - 1)) = w mod 2 ^ n.
Proof.
  intros w n Hw Hn.
  assert (Hp : 1 <= 2 ^ n <= 2 ^ 25).
  { split; [pose proof (pow2_pos n); lia|]. apply Z.pow_le_mono_r; lia. }
  change (2 ^ 25) with 33554432 in Hp.
  rewrite shiftl_pow2 by lia. rewrite Z.mul_1_l.
  rewrite (u32_small w) by lia.
  rewrite (u32_small (2 ^ n)) by lia.
  rewrite (u32_small (2 ^ n - 1)) by lia.
  replace (2 ^ n - 1) with (Z.ones n) by (rewrite Z.ones_equiv; lia).
  apply Z.land_ones. lia.
Qed.

Lemma init_raw_ok : forall b n, 0 <= n < 2 ^ 32 -> raw_ok (od_ec_dec_init b n) 0.
Proof.
  intros b n Hn. rewrite init_unfold.
  destruct (od_ec_dec_refill 3 b n 23 (-15) 0 0) as [[c o] dif].
  unfold raw_ok. cbn [end_offs end_window nend_bits storage buf].
  change (Z.to_nat 0) with O. cbn [raw_tail].
  repeat split; try lia.
Qed.

Lemma raw_ok_taken : forall b stor m w a k n nb o r v c e er,
  0 <= k -> 0 <= n -> Z.of_nat m <= stor < 2 ^ 32 ->
  w = raw_tail b stor m / 2 ^ k -> 0 <= w < 2 ^ 32 ->
  ((a = 8 * Z.of_nat m - k /\ n <= a <= 32) \/
   (Z.of_nat m = stor /\ n <= a <= OD_EC_LOTS_OF_BITS)) ->
  raw_ok (mk_dec b stor (Z.of_nat m) (Z.shiftr w n) (a - n) nb o r v c e er)
         (k + n).
Proof.
  intros b stor m w a k n nb o r v c e er Hk Hn Hm Ew Hw Hmode.
  pose proof (pow2_pos k Hk). pose proof (pow2_pos n Hn).
  unfold raw_ok. cbn [end_offs end_window nend_bits storage buf].
  rewrite Nat2Z.id, shiftr_pow2 by lia.
  split; [lia|]. split; [lia|]. split; [lia|]. split.
  - rewrite Ew, Z.div_div by lia. rewrite Z.pow_add_r by lia. reflexivity.
  - split; [zdiv|].
    destruct Hmode as [[Ea Ha] | [Em Ha]]; [left | right]; lia.
Qed.

Lemma bits_step : forall st k n,
  raw_ok st k -> 0 <= n <= 25 ->
  snd (od_ec_dec_bits st n) = (raw_stream st / 2 ^ k) mod 2 ^ n /\
  raw_ok (fst (od_ec_dec_bits st n)) (k + n).
Proof.
  intros st k n (Hk & Heo & Hs & Ew & Hw & Hmode) Hn.
  set (m := Z.to_nat (end_offs st)) in *.
  assert (Em : Z.of_nat m = end_offs st) by (unfold m; lia).
  assert (HmM : (m <= Z.to_nat (storage st))%nat) by lia.
  unfold od_ec_dec_bits, raw_stream. unfold OD_EC_LOTS_OF_BITS in *.
  rewrite (u32_small (nend_bits st))
    by (change (2 ^ 32) with 4294967296; lia).
  rewrite <- Em.
  destruct (nend_bits st <? n) eqn:C.
  - apply Z.ltb_lt in C. destruct Hmode as [[Ea Ha] | [Ee Ha]].
    + destruct (bits_refill_spec (bits_fuel (nend_bits st)) (buf st)
                  (storage st) m (end_window st) (nend_bits st) k)
        as [m' [w' [a' [E [Hmm [Hm' [Ew' [Hw' Hmode']]]]]]]];
        try lia; try exact Ew.
      { apply bits_fuel_enough. }
      rewrite E. cbn [fst snd]. rewrite bits_mask by lia. split.
      * rewrite Ew'. destruct Hmode' as [[Ea' Ha'] | [Ee' Ha']].
        -- apply stream_low_bits; lia.
        -- replace (Z.to_nat (storage st)) with m' by lia. reflexivity.
      * apply raw_ok_taken; try lia; try exact Ew'.
        unfold OD_EC_LOTS_OF_BITS in *.
        destruct Hmode' as [[Ea' Ha'] | [Ee' Ha']]; [left | right]; lia.
    + unfold bits_fuel. cbn [od_ec_dec_bits_refill].
      assert (L : (storage st <=? Z.of_nat m) = true)
        by (apply Z.leb_le; lia).
      rewrite L. cbn [fst snd]. rewrite bits_mask by lia. split.
      * rewrite Ew. replace (Z.to_nat (storage st)) with m by lia.
        reflexivity.
      * apply raw_ok_taken; try lia; try exact Ew.
        unfold OD_EC_LOTS_OF_BITS. right. lia.
  - apply Z.ltb_ge in C. cbn [fst snd]. rewrite bits_mask by lia. split.
    + rewrite Ew. destruct Hmode as [[Ea Ha] | [Ee Ha]].
      * apply stream_low_bits; lia.
      * replace (Z.to_nat (storage st)) with m by lia. reflexivity.
    + apply raw_ok_taken; try lia; try exact Ew.
      unfold OD_EC_LOTS_OF_BITS.
      destruct Hmode as [[Ea Ha] | [Ee Ha]]; [left | right]; lia.
Qed.

(** X13. Raw bits are a stream read from the end of the buffer: after
    [od_ec_dec_init], and with [k] raw bits taken so far, [od_ec_dec_bits]
    with [n] bits (0 to 25) returns the bits [k .. k+n) of the number the
    buffer makes when read backward from its last byte, zeros past the
    front of the buffer, and leaves [k+n] bits taken. *)
Theorem bits_from_stream :
  (forall b n, 0 <= n < 2 ^ 32 -> raw_ok (od_ec_dec_init b n) 0) /\
  (forall st k n, raw_ok st k -> 0 <= n <= 25 ->
     snd (od_ec_dec_bits st n) = (raw_stream st / 2 ^ k) mod 2 ^ n /\
     raw_ok (fst (od_ec_dec_bits st n)) (k + n) /\
     raw_stream (fst (od_ec_dec_bits st n)) = raw_stream st).
Proof.
  split; [exact init_raw_ok|].
  intros st k n Hok Hn. destruct (bits_step st k n Hok Hn) as [E H].
  split; [exact E|]. split; [exact H|].
  destruct (bits_range_coder st n) as (_ & _ & _ & _ & Es & _ & _ & Eb).
  unfold raw_stream. rewrite Es, Eb. reflexivity.
Qed.

Lemma bits_from_stream_witness :
  let st := fst (od_ec_dec_bits (od_ec_dec_init sample_buf 5) 8) in
  snd (od_ec_dec_bits st 12) = (raw_stream st / 2 ^ 8) mod 2 ^ 12 /\
  raw_ok (fst (od_ec_dec_bits st 12)) (8 + 12) /\
  raw_stream (fst (od_ec_dec_bits st 12)) = raw_stream st.
Proof.
  apply (proj2 bits_from_stream
           (fst (od_ec_dec_bits (od_ec_dec_init sample_buf 5) 8)) 8 12).
  - apply (proj2 bits_from_stream (od_ec_dec_init sample_buf 5) 0 8).
    + apply (proj1 bits_from_stream). lia.
    + lia.
  - lia.
Defined.

(** ** Raw bits and range-coded symbols do not disturb each other *)

Lemma normalize_bits_commute : forall st n dif r ret,
  fst (od_ec_dec_normalize (fst (od_ec_dec_bits st n)) dif r ret) =
  fst (od_ec_dec_bits (fst (od_ec_dec_normalize st dif r ret)) n).
Proof.
  intros st n dif r ret.
  unfold od_ec_dec_bits, od_ec_dec_normalize.
  destruct (u32 (nend_bits st) <? n) eqn:C;
    [destruct (od_ec_dec_bits_refill _ _ _ _ _ _) as [[eo w] a] eqn:E |];
    cbn [fst buf storage end_offs end_window nend_bits nbits_total offs rng
         val cnt ext error];
    (destruct (cnt st - _ <? 0);
     [destruct (od_ec_dec_refill _ _ _ _ _ _ _) as [[c o] d] |]);
    cbn [fst buf storage end_offs end_window nend_bits nbits_total offs rng
         val cnt ext error];
    rewrite C; rewrite ?E; cbn [fst]; f_equal; lia.
Qed.

Lemma bits_set_ext : forall st n e,
  set_ext (fst (od_ec_dec_bits st n)) e = fst (od_ec_dec_bits (set_ext st e) n).
Proof.
  intros st n e. unfold od_ec_dec_bits.
  cbn [set_ext buf storage end_offs end_window nend_bits nbits_total offs rng
       val cnt ext error].
  destruct (u32 (nend_bits st) <? n);
    [destruct (od_ec_dec_bits_refill _ _ _ _ _ _) as [[eo w] a] |];
    reflexivity.
Qed.

Lemma bits_same_raw : forall st st' n,
  same_raw st st' -> snd (od_ec_dec_bits st' n) = snd (od_ec_dec_bits st n).
Proof.
  intros st st' n (Eb & Es & Eo & Ew & Ea). unfold od_ec_dec_bits.
  rewrite Eb, Es, Eo, Ew, Ea.
  destruct (u32 (nend_bits st) <? n);
    [destruct (od_ec_dec_bits_refill _ _ _ _ _ _) as [[eo w] a] |];
    reflexivity.
Qed.

Lemma pair_snd : forall (x : od_ec_dec * Z) r, snd x = r -> x = (fst x, r).
Proof. intros [a b] r E. cbn in E. subst. reflexivity. Qed.

Lemma narrow_bits_commute : forall st n d fl fh ret,
  ec_narrow (fst (od_ec_dec_bits st n)) d fl fh ret =
  (fst (od_ec_dec_bits (fst (ec_narrow st d fl fh ret)) n), ret).
Proof.
  intros st n d fl fh ret. unfold ec_narrow.
  destruct (bits_range_coder st n) as (_ & Ev & _). rewrite Ev.
  rewrite <- normalize_bits_commute.
  apply pair_snd, normalize_ret.
Qed.

Lemma narrow_same_raw : forall st d fl fh ret,
  same_raw st (fst (ec_narrow st d fl fh ret)).
Proof. intros. unfold ec_narrow. apply normalize_same_raw. Qed.

Lemma set_ext_same_raw : forall st e, same_raw st (set_ext st e).
Proof. intros. repeat split. Qed.

Lemma run_same_raw : forall ub c st st' v,
  is_raw_call c = false -> run ub c st = Some (st', v) -> same_raw st st'.
Proof.
  intros ub c st st' v Hc E.
  destruct c; cbn [run] in E; try discriminate Hc;
    try (rewrite (some_pair_fst _ _ _ E)).
  - apply set_ext_same_raw.
  - rewrite od_ec_decode_scale. apply set_ext_same_raw.
  - apply set_ext_same_raw.
  - apply set_ext_same_raw.
  - cbn [fst]. rewrite update_narrow. apply narrow_same_raw.
  - unfold od_ec_dec_bit_logp. apply normalize_same_raw.
  - unfold od_ec_dec_icdf_ft in E. rewrite icdf_ft_body_eq in E.
    destruct (icdf_walk _ _ _ _) as [[ret fl] |]; [| discriminate].
    rewrite (some_pair_fst _ _ _ E). apply narrow_same_raw.
  - unfold od_ec_dec_icdf16_ft in E. rewrite icdf_ft_body_eq in E.
    destruct (icdf_walk _ _ _ _) as [[ret fl] |]; [| discriminate].
    rewrite (some_pair_fst _ _ _ E). apply narrow_same_raw.
  - unfold od_ec_dec_icdf in E. rewrite icdf_body_eq in E.
    destruct (icdf_walk _ _ _ _) as [[ret fl] |]; [| discriminate].
    rewrite (some_pair_fst _ _ _ E). apply narrow_same_raw.
  - unfold od_ec_dec_icdf16 in E. rewrite icdf_body_eq in E.
    destruct (icdf_walk _ _ _ _) as [[ret fl] |]; [| discriminate].
    rewrite (some_pair_fst _ _ _ E). apply narrow_same_raw.
Qed.

Lemma icdf_ft_body_bits : forall st n tbl ft,
  icdf_ft_body (fst (od_ec_dec_bits st n)) tbl ft =
  option_map (fun p => (fst (od_ec_dec_bits (fst p) n), snd p))
             (icdf_ft_body st tbl ft).
Proof.
  intros st n tbl ft. rewrite !icdf_ft_body_eq. unfold icdf_ft_q.
  destruct (bits_range_coder st n) as (Er & Ev & _). rewrite Er, Ev.
  destruct (icdf_walk _ _ _ _) as [[ret fl] |]; [| reflexivity].
  cbn [option_map]. apply f_equal. rewrite narrow_bits_commute.
  rewrite ec_narrow_ret. reflexivity.
Qed.

Lemma icdf_body_bits : forall st n tbl ftb,
  icdf_body (fst (od_ec_dec_bits st n)) tbl ftb =
  option_map (fun p => (fst (od_ec_dec_bits (fst p) n), snd p))
             (icdf_body st tbl ftb).
Proof.
  intros st n tbl ftb. rewrite !icdf_body_eq. unfold icdf_q.
  destruct (bits_range_coder st n) as (Er & Ev & _). rewrite Er, Ev.
  destruct (icdf_walk _ _ _ _) as [[ret fl] |]; [| reflexivity].
  cbn [option_map]. apply f_equal. rewrite narrow_bits_commute.
  rewrite ec_narrow_ret. reflexivity.
Qed.

Lemma run_after_bits : forall ub c st n,
  is_raw_call c = false ->
  run ub c (fst (od_ec_dec_bits st n)) =
  option_map (fun p => (fst (od_ec_dec_bits (fst p) n), snd p)) (run ub c st).
Proof.
  intros ub c st n Hc.
  destruct (bits_range_coder st n) as (Er & Ev & _ & _ & _ & Ee & _).
  assert (Et : top16 (fst (od_ec_dec_bits st n)) = top16 st)
    by (unfold top16; rewrite Ev; reflexivity).
  destruct c; cbn [run option_map fst snd]; try discriminate Hc.
  - unfold od_ec_decode_normalized. rewrite Er, Et, bits_set_ext.
    reflexivity.
  - rewrite !od_ec_decode_scale. rewrite Er, Et, bits_set_ext. reflexivity.
  - unfold od_ec_decode_bin_normalized. rewrite Er, Et, bits_set_ext.
    reflexivity.
  - unfold od_ec_decode_bin. rewrite Er, Et, bits_set_ext. reflexivity.
  - rewrite !update_narrow. rewrite Er, Ee, narrow_bits_commute. reflexivity.
  - unfold od_ec_dec_bit_logp. rewrite Er, Ev. apply f_equal.
    rewrite <- normalize_bits_commute. rewrite normalize_ret.
    apply pair_snd, normalize_ret.
  - apply icdf_ft_body_bits.
  - apply icdf_ft_body_bits.
  - apply icdf_body_bits.
  - apply icdf_body_bits.
Qed.

(** X14. Raw bits and range-coded symbols are independent: a call that is
    not [od_ec_dec_bits] or [od_ec_dec_uint] leaves the buffer, [storage],
    [end_offs], [end_window] and [nend_bits] alone; it returns the same value
    and leaves the same context whether [od_ec_dec_bits] runs before it or
    after it, and [od_ec_dec_bits] returns the same bits in both orders. *)
Theorem raw_bits_commute : forall ub c st n st' v,
  is_raw_call c = false -> run ub c st = Some (st', v) ->
  same_raw st st' /\
  run ub c (fst (od_ec_dec_bits st n)) =
    Some (fst (od_ec_dec_bits st' n), v) /\
  snd (od_ec_dec_bits st' n) = snd (od_ec_dec_bits st n).
Proof.
  intros ub c st n st' v Hc E.
  pose proof (run_same_raw ub c st st' v Hc E) as Hraw.
  split; [exact Hraw|]. split.
  - rewrite (run_after_bits ub c st n Hc), E. reflexivity.
  - apply bits_same_raw. exact Hraw.
Qed.

Lemma raw_bits_commute_witness :
  let st := od_ec_dec_init sample_buf 5 in
  let st' := fst (od_ec_dec_bit_logp st 1) in
  same_raw st st' /\
  run 4 (BitLogp 1) (fst (od_ec_dec_bits st 4)) =
    Some (fst (od_ec_dec_bits st' 4), 1) /\
  snd (od_ec_dec_bits st' 4) = snd (od_ec_dec_bits st 4).
Proof.
  apply (raw_bits_commute 4 (BitLogp 1) (od_ec_dec_init sample_buf 5) 4).
  - reflexivity.
  - reflexivity.
Defined.

(** ** No byte at or past [storage] is read *)

Lemma refill_same_bytes : forall fuel b b' stor s c o dif,
  same_bytes b b' stor -> 0 <= o ->
  od_ec_dec_refill fuel b' stor s c o dif =
  od_ec_dec_refill fuel b stor s c o dif.
Proof.
  induction fuel as [| fuel IH]; intros b b' stor s c o dif Hb Ho;
    [reflexivity|].
  cbn [od_ec_dec_refill]. destruct (s <? 0); [reflexivity|].
  destruct (stor <=? o) eqn:C; [reflexivity|].
  apply Z.leb_gt in C. rewrite <- (Hb o) by lia.
  apply IH; [exact Hb | apply u32_range].
Qed.

Lemma bits_refill_same_bytes : forall fuel b b' stor eo w a,
  same_bytes b b' stor -> 0 <= eo -> stor < 2 ^ 32 ->
  od_ec_dec_bits_refill fuel b' stor eo w a =
  od_ec_dec_bits_refill fuel b stor eo w a.
Proof.
  induction fuel as [| fuel IH]; intros b b' stor eo w a Hb Ho Hs;
    [reflexivity|].
  cbn [od_ec_dec_bits_refill]. destruct (stor <=? eo) eqn:C; [reflexivity|].
  apply Z.leb_gt in C.
  rewrite (u32_small (eo + 1)) by lia.
  rewrite (u32_small (stor - (eo + 1))) by lia.
  rewrite <- (Hb (stor - (eo + 1))) by lia.
  destruct (_ <=? _); [| reflexivity].
  apply IH; [exact Hb | lia | exact Hs].
Qed.

Lemma normalize_with_buf : forall st b' dif r ret,
  same_bytes (buf st) b' (storage st) -> 0 <= offs st ->
  od_ec_dec_normalize (with_buf st b') dif r ret =
  (with_buf (fst (od_ec_dec_normalize st dif r ret)) b', ret).
Proof.
  intros st b' dif r ret Hb Ho. unfold od_ec_dec_normalize.
  cbn [with_buf buf storage end_offs end_window nend_bits nbits_total offs
       rng val cnt ext error].
  destruct (_ <? 0); [| reflexivity].
  rewrite (refill_same_bytes _ (buf st) b') by assumption.
  destruct (od_ec_dec_refill _ _ _ _ _ _ _) as [[c o] d]. reflexivity.
Qed.

Lemma bits_with_buf : forall st b' n,
  same_bytes (buf st) b' (storage st) -> 0 <= end_offs st ->
  storage st < 2 ^ 32 ->
  od_ec_dec_bits (with_buf st b') n =
  (with_buf (fst (od_ec_dec_bits st n)) b', snd (od_ec_dec_bits st n)).
Proof.
  intros st b' n Hb Ho Hs. unfold od_ec_dec_bits.
  cbn [with_buf buf storage end_offs end_window nend_bits nbits_total offs
       rng val cnt ext error].
  destruct (_ <? n); [| reflexivity].
  rewrite (bits_refill_same_bytes _ (buf st) b') by assumption.
  destruct (od_ec_dec_bits_refill _ _ _ _ _ _) as [[eo w] a]. reflexivity.
Qed.

Lemma narrow_with_buf : forall st b' d fl fh ret,
  same_bytes (buf st) b' (storage st) -> 0 <= offs st ->
  ec_narrow (with_buf st b') d fl fh ret =
  (with_buf (fst (ec_narrow st d fl fh ret)) b', ret).
Proof.
  intros. unfold ec_narrow. change (val (with_buf st b')) with (val st).
  apply normalize_with_buf; assumption.
Qed.

Lemma update_with_buf : forall st b' fl fh ft,
  same_bytes (buf st) b' (storage st) -> 0 <= offs st ->
  od_ec_dec_update (with_buf st b') fl fh ft =
  with_buf (od_ec_dec_update st fl fh ft) b'.
Proof.
  intros st b' fl fh ft Hb Ho. rewrite !update_narrow.
  change (ext (with_buf st b')) with (ext st).
  change (rng (with_buf st b')) with (rng st).
  rewrite narrow_with_buf by assumption. reflexivity.
Qed.

Lemma icdf_ft_body_with_buf : forall st b' tbl ft,
  same_bytes (buf st) b' (storage st) -> 0 <= offs st ->
  icdf_ft_body (with_buf st b') tbl ft =
  option_map (fun p => (with_buf (fst p) b', snd p)) (icdf_ft_body st tbl ft).
Proof.
  intros st b' tbl ft Hb Ho. rewrite !icdf_ft_body_eq.
  change (icdf_ft_q (with_buf st b') ft) with (icdf_ft_q st ft).
  change (rng (with_buf st b')) with (rng st).
  destruct (icdf_walk _ _ _ _) as [[ret fl] |]; [| reflexivity].
  cbn [option_map]. rewrite narrow_with_buf by assumption.
  rewrite ec_narrow_ret. reflexivity.
Qed.

Lemma icdf_body_with_buf : forall st b' tbl ftb,
  same_bytes (buf st) b' (storage st) -> 0 <= offs st ->
  icdf_body (with_buf st b') tbl ftb =
  option_map (fun p => (with_buf (fst p) b', snd p)) (icdf_body st tbl ftb).
Proof.
  intros st b' tbl ftb Hb Ho. rewrite !icdf_body_eq.
  change (icdf_q (with_buf st b') ftb) with (icdf_q st ftb).
  change (rng (with_buf st b')) with (rng st).
  destruct (icdf_walk _ _ _ _) as [[ret fl] |]; [| reflexivity].
  cbn [option_map]. rewrite narrow_with_buf by assumption.
  rewrite ec_narrow_ret. reflexivity.
Qed.

Lemma uint_with_buf : forall ub st b' ft,
  same_bytes (buf st) b' (storage st) -> 0 <= offs st ->
  0 <= end_offs st -> storage st < 2 ^ 32 ->
  od_ec_dec_uint ub (with_buf st b') ft =
  (with_buf (fst (od_ec_dec_uint ub st ft)) b', snd (od_ec_dec_uint ub st ft)).
Proof.
  intros ub st b' ft Hb Ho He Hs. unfold od_ec_dec_uint.
  destruct (_ <? ft).
  - change (od_ec_decode_normalized (with_buf st b') ?x)
      with (with_buf (fst (od_ec_decode_normalized st x)) b',
            snd (od_ec_decode_normalized st x)).
    destruct (od_ec_decode_normalized st _) as [st1 v] eqn:E1.
    cbn [fst snd].
    assert (F1 : buf st1 = buf st /\ storage st1 = storage st /\
                 offs st1 = offs st /\ end_offs st1 = end_offs st).
    { unfold od_ec_decode_normalized in E1. injection E1 as <- _.
      repeat split. }
    destruct F1 as (Eb1 & Es1 & Eo1 & Ee1).
    rewrite update_with_buf by (rewrite ?Eb1, ?Es1, ?Eo1; assumption).
    match goal with
    | |- context [od_ec_dec_bits (with_buf ?s2 b') ?k] =>
        assert (F2 : same_raw st1 s2)
          by (rewrite update_narrow; apply narrow_same_raw);
        destruct F2 as (Eb2 & Es2 & Ee2 & _);
        rewrite (bits_with_buf s2 b' k)
          by (rewrite ?Eb2, ?Es2, ?Ee2, ?Eb1, ?Es1, ?Ee1; assumption);
        destruct (od_ec_dec_bits s2 k) as [st3 lo]
    end.
    cbn [fst snd]. destruct (_ <=? _); reflexivity.
  - rewrite od_ec_decode_scale.
    change (rng (with_buf st b')) with (rng st).
    change (top16 (with_buf st b')) with (top16 st).
    change (set_ext (with_buf st b') ?e) with (with_buf (set_ext st e) b').
    rewrite (od_ec_decode_scale st ft).
    rewrite update_with_buf by assumption. reflexivity.
Qed.

Lemma run_with_buf : forall ub c st b',
  same_bytes (buf st) b' (storage st) -> 0 <= offs st ->
  0 <= end_offs st -> storage st < 2 ^ 32 ->
  run ub c (with_buf st b') =
  option_map (fun p => (with_buf (fst p) b', snd p)) (run ub c st).
Proof.
  intros ub c st b' Hb Ho He Hs.
  destruct c; cbn [run option_map fst snd].
  - reflexivity.
  - rewrite !od_ec_decode_scale. reflexivity.
  - reflexivity.
  - reflexivity.
  - rewrite update_with_buf by assumption. reflexivity.
  - unfold od_ec_dec_bit_logp.
    change (val (with_buf st b')) with (val st).
    change (rng (with_buf st b')) with (rng st).
    rewrite normalize_with_buf by assumption.
    rewrite normalize_ret. reflexivity.
  - apply icdf_ft_body_with_buf; assumption.
  - apply icdf_ft_body_with_buf; assumption.
  - apply icdf_body_with_buf; assumption.
  - apply icdf_body_with_buf; assumption.
  - rewrite uint_with_buf by assumption. reflexivity.
  - rewrite bits_with_buf by assumption. reflexivity.
Qed.

Lemma init_with_buf : forall b b' n,
  same_bytes b b' n -> od_ec_dec_init b' n = with_buf (od_ec_dec_init b n) b'.
Proof.
  intros b b' n Hb. rewrite !init_unfold.
  rewrite (refill_same_bytes _ b b') by (try assumption; lia).
  destruct (od_ec_dec_refill _ _ _ _ _ _ _) as [[c o] d]. reflexivity.
Qed.

(** X15. The decoder reads no byte at or past [storage]: two buffers with
    the same bytes below [storage] give, from [od_ec_dec_init] on and through
    every call, the same values and the same contexts (the buffer itself
    apart). *)
Theorem reads_below_storage :
  (forall b b' n, same_bytes b b' n ->
     od_ec_dec_init b' n = with_buf (od_ec_dec_init b n) b') /\
  (forall ub c st b',
     same_bytes (buf st) b' (storage st) -> 0 <= offs st ->
     0 <= end_offs st -> storage st < 2 ^ 32 ->
     run ub c (with_buf st b') =
     option_map (fun p => (with_buf (fst p) b', snd p)) (run ub c st)).
Proof. split; [exact init_with_buf | exact run_with_buf]. Qed.

Lemma reads_below_storage_witness :
  run 4 (Bits 20)
    (with_buf (od_ec_dec_init sample_buf 2) [xa5; x3c; x11; x22]) =
  option_map (fun p => (with_buf (fst p) [xa5; x3c; x11; x22], snd p))
             (run 4 (Bits 20) (od_ec_dec_init sample_buf 2)).
Proof.
  apply (proj2 reads_below_storage 4 (Bits 20)
           (od_ec_dec_init sample_buf 2) [xa5; x3c; x11; x22]).
  - intros i Hi. change (storage (od_ec_dec_init sample_buf 2)) with 2 in Hi.
    assert (i = 0 \/ i = 1) as [-> | ->] by lia; reflexivity.
  - vm_compute. discriminate.
  - vm_compute. discriminate.
  - vm_compute. reflexivity.
Defined.

(** ** Past the end of the buffer *)

Lemma normalize_drained : forall st r ret,
  storage st <= offs st ->
  val (fst (od_ec_dec_normalize st 0 r ret)) = 0 /\
  offs (fst (od_ec_dec_normalize st 0 r ret)) = offs st /\
  storage (fst (od_ec_dec_normalize st 0 r ret)) = storage st.
Proof.
  intros st r ret Hex. unfold od_ec_dec_normalize.
  rewrite Z.shiftl_0_l. change (u32 0) with 0.
  destruct (cnt st - (16 - OD_ILOG_NZ r) <? 0) eqn:C;
    [| repeat split].
  apply Z.ltb_lt in C.
  set (s := OD_EC_WINDOW_SIZE - 9 - (cnt st - (16 - OD_ILOG_NZ r) + 15)).
  assert (Hs : 0 <= s) by (unfold s, OD_EC_WINDOW_SIZE; lia).
  pose proof (refill_fuel_enough s) as Hf.
  destruct (refill_fuel s) as [| fuel]; [lia|].
  rewrite refill_exhausted by assumption. repeat split.
Qed.

(** X16. Past the end of the buffer the decoder reads zeros: once the
    buffer is used up and the window is 0 (as after [od_ec_dec_init] with
    [storage = 0]), [od_ec_decode] returns 0 for every total, and
    [od_ec_dec_bit_logp] returns 0 for every [logp] from 1 to 15 and leaves
    the window at 0 and the buffer used up. *)
Theorem zero_padding : forall st,
  dec_ok st -> val st = 0 -> storage st <= offs st ->
  (forall ft, 1 <= ft <= 32767 -> snd (od_ec_decode st ft) = 0) /\
  (forall logp, 1 <= logp <= 15 ->
     snd (od_ec_dec_bit_logp st logp) = 0 /\
     val (fst (od_ec_dec_bit_logp st logp)) = 0 /\
     storage (fst (od_ec_dec_bit_logp st logp))
     <= offs (fst (od_ec_dec_bit_logp st logp))).
Proof.
  intros st Hok Hv Hex. pose proof Hok as [Hr _ _ _ _ _].
  destruct (top16_eq st Hok) as [ED HD].
  assert (E0 : top16 st = 0) by (rewrite ED, Hv; reflexivity).
  split.
  - intros ft Hft. rewrite od_ec_decode_scale. cbn [snd].
    destruct (ec_scale_spec ft (rng st) Hft Hr) as [Hs [Ef Hb]].
    rewrite (maxi_value _ _ _ HD Hr Hb). rewrite E0.
    change (0 / 2) with 0.
    rewrite Z.max_l by lia. rewrite Z.shiftr_0_l. reflexivity.
  - intros logp Hl. unfold od_ec_dec_bit_logp, OD_MINI, OD_EC_WINDOW_SIZE.
    change (32 - 16) with 16.
    rewrite (u32_small (15 - logp)) by lia.
    rewrite (shiftl_pow2 1) by lia. rewrite Z.mul_1_l.
    assert (Hp : 1 <= 2 ^ (15 - logp) <= 2 ^ 14).
    { split; [pose proof (pow2_pos (15 - logp)); lia|].
      apply Z.pow_le_mono_r; lia. }
    change (2 ^ 14) with 16384 in Hp.
    rewrite s32_small by lia.
    set (p := 2 ^ (15 - logp)) in *.
    rewrite (u32_small (32768 - p)) by lia.
    rewrite (u32_small (rng st - 32768)) by lia.
    set (v := 32768 - p + Z.min (32768 - p) (rng st - 32768)).
    assert (Hvb : 16384 <= v < rng st) by (unfold v; lia).
    rewrite (u32_small v) by lia.
    rewrite shiftl_pow2 by lia. change (2 ^ 16) with 65536.
    rewrite (u32_small (v * 65536))
      by (change (2 ^ 32) with 4294967296; lia).
    rewrite Hv.
    destruct (v * 65536 <=? 0) eqn:C; [apply Z.leb_le in C; lia|].
    cbn [Z.eqb]. rewrite normalize_ret.
    destruct (normalize_drained st v 0 Hex) as (E1 & E2 & E3).
    rewrite E1, E2, E3. repeat split; lia.
Qed.

Lemma zero_padding_witness :
  (forall ft, 1 <= ft <= 32767 ->
     snd (od_ec_decode (od_ec_dec_init sample_buf 0) ft) = 0) /\
  (forall logp, 1 <= logp <= 15 ->
     snd (od_ec_dec_bit_logp (od_ec_dec_init sample_buf 0) logp) = 0 /\
     val (fst (od_ec_dec_bit_logp (od_ec_dec_init sample_buf 0) logp)) = 0 /\
     storage (fst (od_ec_dec_bit_logp (od_ec_dec_init sample_buf 0) logp))
     <= offs (fst (od_ec_dec_bit_logp (od_ec_dec_init sample_buf 0) logp))).
Proof.
  apply (zero_padding (od_ec_dec_init sample_buf 0)).
  - apply init_ok. lia.
  - reflexivity.
  - vm_compute. discriminate.
Defined.

(** ** The front offset *)

Lemma refill_offs : forall fuel b stor s c o dif,
  0 <= o <= stor -> stor < 2 ^ 32 ->
  o <= snd (fst (od_ec_dec_refill fuel b stor s c o dif)) <= stor.
Proof.
  induction fuel as [| fuel IH]; intros b stor s c o dif Ho Hs;
    [cbn; lia|].
  cbn [od_ec_dec_refill]. destruct (s <? 0); [cbn; lia|].
  destruct (stor <=? o) eqn:C; [cbn; lia|].
  apply Z.leb_gt in C. rewrite (u32_small (o + 1)) by lia.
  pose proof (IH b stor (s - 8) (c + 8) (o + 1)
                (Z.lor dif (u32 (Z.shiftl (buf_at b o) s)))
                ltac:(lia) Hs). lia.
Qed.

Lemma normalize_offs : forall st dif r ret,
  0 <= offs st <= storage st -> storage st < 2 ^ 32 ->
  offs st <= offs (fst (od_ec_dec_normalize st dif r ret)) <= storage st.
Proof.
  intros st dif r ret Ho Hs. unfold od_ec_dec_normalize.
  destruct (_ <? 0); [| cbn [fst offs]; lia].
  match goal with
  | |- context [od_ec_dec_refill ?f ?b ?stor ?s ?c ?o ?d] =>
      pose proof (refill_offs f b stor s c o d Ho Hs) as H;
      destruct (od_ec_dec_refill f b stor s c o d) as [[c' o'] d']
  end.
  cbn [fst snd offs] in *. exact H.
Qed.

Lemma narrow_offs : forall st d fl fh ret,
  0 <= offs st <= storage st -> storage st < 2 ^ 32 ->
  offs st <= offs (fst (ec_narrow st d fl fh ret)) <= storage st.
Proof. intros. unfold ec_narrow. apply normalize_offs; assumption. Qed.

Lemma update_offs : forall st fl fh ft,
  0 <= offs st <= storage st -> storage st < 2 ^ 32 ->
  offs st <= offs (od_ec_dec_update st fl fh ft) <= storage st.
Proof. intros. rewrite update_narrow. apply narrow_offs; assumption. Qed.

Lemma uint_offs : forall ub st ft,
  0 <= offs st <= storage st -> storage st < 2 ^ 32 ->
  offs st <= offs (fst (od_ec_dec_uint ub st ft)) <= storage st.
Proof.
  intros ub st ft Ho Hs.
  destruct (Z_lt_le_dec (u32 (Z.shiftl 1 ub)) ft) as [H | H].
  - rewrite (uint_large_eq ub st ft H).
    assert (Hc : offs st <= offs (fst (uint_combined ub st ft))
                 <= storage st).
    { unfold uint_combined. cbn [fst].
      match goal with
      | |- _ <= offs (fst (od_ec_dec_bits ?s ?k)) <= _ =>
          destruct (bits_range_coder s k) as (_ & _ & _ & Eo & _)
      end.
      rewrite Eo. apply (update_offs (set_ext st _)); assumption. }
    destruct (_ <=? _); cbn [fst set_error offs]; exact Hc.
  - rewrite (uint_small_eq ub st ft H). cbn [fst].
    rewrite od_ec_decode_scale. cbn [fst].
    apply (update_offs (set_ext st _)); assumption.
Qed.

(** X17. The front offset never goes back and never passes [storage]:
    [od_ec_dec_init] leaves it between 0 and [storage], and every call,
    documented or not, leaves it between its old value and [storage]. *)
Theorem offs_bounded :
  (forall b n, 0 <= n < 2 ^ 32 ->
     0 <= offs (od_ec_dec_init b n) <= storage (od_ec_dec_init b n)) /\
  (forall ub c st st' v,
     0 <= offs st <= storage st -> storage st < 2 ^ 32 ->
     run ub c st = Some (st', v) ->
     offs st <= offs st' <= storage st' /\ storage st' = storage st).
Proof.
  split.
  - intros b n Hn. rewrite init_unfold.
    pose proof (refill_offs 3 b n 23 (-15) 0 0 ltac:(lia) ltac:(lia)) as H.
    destruct (od_ec_dec_refill 3 b n 23 (-15) 0 0) as [[c o] d].
    cbn [fst snd offs storage] in *. exact H.
  - intros ub c st st' v Ho Hs E.
    assert (Hst : storage st' = storage st).
    { destruct (is_raw_call c) eqn:Hc.
      - destruct c; try discriminate Hc; cbn [run] in E;
          rewrite (some_pair_fst _ _ _ E).
        + destruct (Z_lt_le_dec (u32 (Z.shiftl 1 ub)) ft) as [H | H].
          * rewrite (uint_large_eq ub st ft H).
            assert (storage (fst (uint_combined ub st ft)) = storage st).
            { unfold uint_combined. cbn [fst].
              match goal with
              | |- storage (fst (od_ec_dec_bits ?s ?k)) = _ =>
                  destruct (bits_range_coder s k) as (_ & _ & _ & _ & Es & _);
                  rewrite Es
              end.
              unfold od_ec_dec_update. rewrite normalize_storage.
              reflexivity. }
            destruct (_ <=? _); cbn [fst set_error storage]; assumption.
          * rewrite (uint_small_eq ub st ft H). cbn [fst].
            unfold od_ec_dec_update. rewrite normalize_storage.
            rewrite od_ec_decode_scale. reflexivity.
        + destruct (bits_range_coder st n) as (_ & _ & _ & _ & Es & _).
          exact Es.
      - exact (proj1 (proj2 (run_same_raw ub c st st' v Hc E))). }
    split; [| exact Hst]. rewrite Hst.
    destruct c; cbn [run] in E; try (rewrite (some_pair_fst _ _ _ E)).
    + cbn. lia.
    + rewrite od_ec_decode_scale. cbn. lia.
    + cbn. lia.
    + cbn. lia.
    + cbn [fst]. apply update_offs; assumption.
    + unfold od_ec_dec_bit_logp. apply normalize_offs; assumption.
    + unfold od_ec_dec_icdf_ft in E. rewrite icdf_ft_body_eq in E.
      destruct (icdf_walk _ _ _ _) as [[ret fl] |]; [| discriminate].
      rewrite (some_pair_fst _ _ _ E). apply narrow_offs; assumption.
    + unfold od_ec_dec_icdf16_ft in E. rewrite icdf_ft_body_eq in E.
      destruct (icdf_walk _ _ _ _) as [[ret fl] |]; [| discriminate].
      rewrite (some_pair_fst _ _ _ E). apply narrow_offs; assumption.
    + unfold od_ec_dec_icdf in E. rewrite icdf_body_eq in E.
      destruct (icdf_walk _ _ _ _) as [[ret fl] |]; [| discriminate].
      rewrite (some_pair_fst _ _ _ E). apply narrow_offs; assumption.
    + unfold od_ec_dec_icdf16 in E. rewrite icdf_body_eq in E.
      destruct (icdf_walk _ _ _ _) as [[ret fl] |]; [| discriminate].
      rewrite (some_pair_fst _ _ _ E). apply narrow_offs; assumption.
    + apply uint_offs; assumption.
    + destruct (bits_range_coder st n) as (_ & _ & _ & Eo & _).
      rewrite Eo. lia.
Qed.

Lemma offs_bounded_witness :
  let st := od_ec_dec_init sample_buf 5 in
  let st' := fst (od_ec_dec_uint 4 st 1000) in
  offs st <= offs st' <= storage st' /\ storage st' = storage st.
Proof.
  apply (proj2 offs_bounded 4 (UInt 1000) (od_ec_dec_init sample_buf 5) _
           (snd (od_ec_dec_uint 4 (od_ec_dec_init sample_buf 5) 1000))).
  - apply (proj1 offs_bounded). lia.
  - vm_compute. reflexivity.
  - reflexivity.
Defined.

(** ** Bits of a power-of-two probability *)

(** X18. With the range at 0x8000, [od_ec_dec_bit_logp] returns 1 exactly
    when the 16 top bits of the window reach [32768 - 2^(15-logp)]; a one
    then costs exactly [logp] bits and brings the range back to 0x8000, a
    zero costs one bit and leaves the range [2*(32768 - 2^(15-logp))]. *)
Theorem bit_logp_power_of_two : forall st logp,
  dec_ok st -> rng st = 0x8000 -> 1 <= logp <= 15 ->
  let v0 := 32768 - 2 ^ (15 - logp) in
  let st' := fst (od_ec_dec_bit_logp st logp) in
  (v0 <= top16 st ->
     snd (od_ec_dec_bit_logp st logp) = 1 /\ rng st' = 0x8000 /\
     nbits_total st' = nbits_total st + logp) /\
  (top16 st < v0 ->
     snd (od_ec_dec_bit_logp st logp) = 0 /\ rng st' = 2 * v0 /\
     nbits_total st' = nbits_total st + 1).
Proof.
  intros st logp Hok Hr Hl. cbv zeta.
  pose proof Hok as [_ Hv _ _ _ _].
  destruct (top16_eq st Hok) as [ED HD].
  assert (Hp : 1 <= 2 ^ (15 - logp) <= 2 ^ 14).
  { split; [pose proof (pow2_pos (15 - logp)); lia|].
    apply Z.pow_le_mono_r; lia. }
  change (2 ^ 14) with 16384 in Hp.
  unfold od_ec_dec_bit_logp, OD_MINI, OD_EC_WINDOW_SIZE.
  change (32 - 16) with 16.
  rewrite normalize_ret, normalize_rng, normalize_nbits_total.
  rewrite (u32_small (15 - logp)) by lia.
  rewrite (shiftl_pow2 1) by lia. rewrite Z.mul_1_l.
  rewrite s32_small by lia.
  set (p := 2 ^ (15 - logp)) in *.
  rewrite (u32_small (32768 - p)) by lia.
  rewrite Hr in *. change (u32 (32768 - 32768)) with 0.
  rewrite (Z.min_r (32768 - p) 0) by lia. rewrite Z.add_0_r.
  rewrite (u32_small (32768 - p)) by lia.
  rewrite (shiftl_pow2 (32768 - p)) by lia. change (2 ^ 16) with 65536 in *.
  rewrite (u32_small ((32768 - p) * 65536))
    by (change (2 ^ 32) with 4294967296; lia).
  assert (Hiff : (32768 - p) * 65536 <= val st <-> 32768 - p <= top16 st)
    by (rewrite ED; zdiv).
  replace (32768 - (32768 - p)) with p by lia.
  rewrite (u32_small p) by lia.
  assert (Ek1 : OD_ILOG_NZ p = 16 - logp).
  { apply ilog_unique; [lia|]. unfold p.
    replace (16 - logp - 1) with (15 - logp) by lia.
    replace (16 - logp) with (Z.succ (15 - logp)) by lia.
    rewrite Z.pow_succ_r by lia. lia. }
  assert (Ek0 : OD_ILOG_NZ (32768 - p) = 15)
    by (apply ilog_unique; [lia | change (2 ^ (15 - 1)) with 16384;
        change (2 ^ 15) with 32768; lia]).
  split; intro Hc.
  - destruct (_ <=? val st) eqn:C; [| apply Z.leb_gt in C; lia].
    cbn [Z.eqb Pos.eqb]. rewrite Ek1.
    replace (16 - (16 - logp)) with logp by lia.
    rewrite shiftl_pow2 by lia. unfold p.
    rewrite <- Z.pow_add_r by lia. replace (15 - logp + logp) with 15 by lia.
    repeat split.
  - destruct (_ <=? val st) eqn:C; [apply Z.leb_le in C; lia|].
    cbn [Z.eqb]. rewrite Ek0. change (16 - 15) with 1.
    rewrite shiftl_pow2 by lia. change (2 ^ 1) with 2.
    rewrite u32_small by lia. repeat split; lia.
Qed.

Lemma bit_logp_power_of_two_witness :
  let st := od_ec_dec_init sample_buf 5 in
  let v0 := 32768 - 2 ^ (15 - 3) in
  let st' := fst (od_ec_dec_bit_logp st 3) in
  (v0 <= top16 st ->
     snd (od_ec_dec_bit_logp st 3) = 1 /\ rng st' = 0x8000 /\
     nbits_total st' = nbits_total st + 3) /\
  (top16 st < v0 ->
     snd (od_ec_dec_bit_logp st 3) = 0 /\ rng st' = 2 * v0 /\
     nbits_total st' = nbits_total st + 1).
Proof.
  apply (bit_logp_power_of_two (od_ec_dec_init sample_buf 5) 3).
  - apply init_ok. lia.
  - reflexivity.
  - lia.
Defined.
